(** * water::StringPool -- the interning pool of source/modules/water/text/StringPool.cpp

    A shallow embedding of the pool (sorted table of reference-counted strings,
    binary-search lookup-or-insert, reference-count driven collection) and the
    properties of its specification. *)

From Stdlib Require Import ZArith Lia.
From stdpp Require Import base option list sorting gmap.

Local Open Scope Z_scope.

(** ** The text primitive *)

(** Modelled from the spec: the character type of the text primitive
    ([water_uchar], declared outside StringPool.cpp).  A code point as the
    UTF-8 reader [getAndAdvance] yields it; [0] is the terminator.  The values
    the reader produces stay far below [2^31], so the casts [(int) c] and the
    subtraction [c1 - c2] of the comparators are exact on [Z]. *)
Definition water_uchar := N.

(** Modelled from the spec: a raw character buffer as a [CharPointer_UTF8]
    sees it, the code points from the base address on.  A read behind the
    last listed code point yields the terminator. *)
Definition CharBuffer := list water_uchar.

(** Modelled from the spec: [CharPointer_UTF8::getAndAdvance] (CharPointer_UTF8.h),
    the code point at offset [p] of the buffer and the advanced offset. *)
Definition getAndAdvance (buf : CharBuffer) (p : nat) : Z * nat :=
  (Z.of_N (nth p buf 0%N), S p).

(** Modelled from the spec: [CharPointer_UTF8::isEmpty], the pointer is at a
    terminator. *)
Definition CharPointer_isEmpty (buf : CharBuffer) (p : nat) : bool :=
  (nth p buf 0%N =? 0)%N.

(** Modelled from the spec: [water::String] (String.h), "an immutable,
    reference-counted character sequence".  A [String] value is a pointer to
    shared storage: [holder] is the identity of that storage, [text] its
    immutable content, the code points before the terminator (none of them is
    the terminator, hence [positive]).  The mutable reference count of the
    storage lives in the [Heap] below. *)
Record String := mkString { holder : nat; text : list positive }.

#[global] Instance String_eq_dec : EqDecision String.
Proof. solve_decision. Defined.

(** Modelled from the spec: [String()], "a canonical empty-string value";
    every empty [String] points to the one static empty holder, address [0],
    whose count is never touched. *)
Definition emptyHolder : nat := 0%nat.
Definition emptyString : String := mkString emptyHolder [].

(** Modelled from the spec: [String::isEmpty]. *)
Definition String_isEmpty (s : String) : bool :=
  match text s with [] => true | _ => false end.

(** Modelled from the spec: [String::getCharPointer], the stored code points
    read through a character pointer: [c2 = (int) s2.getAndAdvance()] yields
    the head of the remaining text, or the terminator once it is used up. *)
Definition String_read (s2 : list positive) : Z :=
  match s2 with [] => 0 | c :: _ => Z.pos c end.

(** The content of a raw buffer: the code points before the first terminator. *)
Fixpoint contentOf (buf : CharBuffer) : list positive :=
  match buf with
  | [] => []
  | N0 :: _ => []
  | Npos c :: rest => c :: contentOf rest
  end.

(** ** The comparators (StringPool.cpp, lines 46-64) *)

(** Modelled from the spec: [String::compare] and [CharPointer_UTF8::compare]
    (String.h, CharacterFunctions.h), "strict lexicographic comparison over
    content", three-way, [0] for equal content. *)
Fixpoint String_compare (s1 s2 : list positive) : Z :=
  match s1, s2 with
  | [], [] => 0
  | [], _ :: _ => -1
  | _ :: _, [] => 1
  | c1 :: r1, c2 :: r2 =>
      match (c1 ?= c2)%positive with
      | Lt => -1
      | Gt => 1
      | Eq => String_compare r1 r2
      end
  end.

(** [struct StartEndString]: two character pointers into one buffer. *)
Record StartEndString := mkStartEndString {
  se_buf : CharBuffer;
  se_start : nat;
  se_end : nat
}.

(** The loop of [compareStrings (const StartEndString&, const String&)].
    [s1] is the read offset in the range's buffer, [s2] the rest of the stored
    text.  Each call is one iteration:
      c1 = s1 < string1.end ? (int) s1.getAndAdvance() : 0;
      c2 = (int) s2.getAndAdvance();  diff = c1 - c2;
      if (diff != 0) return diff < 0 ? -1 : 1;  if (c1 == 0) break;
    The loop goes on only when [c1 = c2 <> 0], that is with [s2] before its
    terminator, so the recursion is on the stored text (and the branch for
    the used-up text after the two tests is never taken). *)
Fixpoint compareStrings_loop (buf : CharBuffer) (s1 e : nat) (s2 : list positive) {struct s2} : Z :=
  let '(c1, s1') := if (s1 <? e)%nat then getAndAdvance buf s1 else (0, s1) in
  let c2 := String_read s2 in
  let diff := c1 - c2 in
  if negb (diff =? 0) then (if diff <? 0 then -1 else 1)
  else if c1 =? 0 then 0
  else match s2 with
       | [] => 0
       | _ :: s2' => compareStrings_loop buf s1' e s2'
       end.

Definition compareStrings_StartEndString (string1 : StartEndString) (string2 : String) : Z :=
  compareStrings_loop (se_buf string1) (se_start string1) (se_end string1) (text string2).

(** [compareStrings (const String&, const String&)]: [s1.compare (s2)]. *)
Definition compareStrings_String (s1 s2 : String) : Z :=
  String_compare (text s1) (text s2).

(** [compareStrings (CharPointer_UTF8, const String&)]:
    [s1.compare (s2.getCharPointer())], the buffer read up to its terminator. *)
Definition compareStrings_CharPointer (s1 : CharBuffer) (s2 : String) : Z :=
  String_compare (contentOf s1) (text s2).

(** The content a [StartEndString] denotes: the code points of [[start, end)]
    up to the first terminator, the end of the range read as the terminator. *)
Definition rangeContent (r : StartEndString) : list positive :=
  contentOf (take (se_end r - se_start r) (drop (se_start r) (se_buf r))).

(** ** Reference counts *)

(** Modelled from the spec: the reference counts of the string storage
    ("a live reference count visible to the pool"), one per live holder.
    A holder whose count drops to zero is freed. *)
Abbreviation Heap := (gmap nat nat).

(** Modelled from the spec: [String::getReferenceCount]. *)
Definition getReferenceCount (h : Heap) (s : String) : nat :=
  default 0%nat (h !! holder s).

(** Modelled from the spec: copying a [String] adds a holder of its storage;
    the static empty holder is not counted. *)
Definition retain (s : String) (h : Heap) : Heap :=
  if decide (holder s = emptyHolder) then h
  else <[holder s := S (getReferenceCount h s)]> h.

(** Modelled from the spec: destroying a [String] drops a holder of its
    storage and frees the storage with the last one. *)
Definition release (s : String) (h : Heap) : Heap :=
  if decide (holder s = emptyHolder) then h
  else match h !! holder s with
       | Some (S (S n)) => <[holder s := S n]> h
       | _ => delete (holder s) h
       end.

(** Modelled from the spec: constructing a [String] from character data
    ("construction from a raw buffer or from a [start,end) range"): fresh
    storage held once, or the canonical empty value for empty content. *)
Definition String_construct (content : list positive) (h : Heap) : String * Heap :=
  match content with
  | [] => (emptyString, h)
  | _ => let a := fresh ({[emptyHolder]} ∪ dom h) in (mkString a content, <[a := 1%nat]> h)
  end.

(** ** Array<String> *)

(** Modelled from the spec: [Array::insert] (Array.h), the element goes to
    [indexToInsertAt] and the tail shifts up; an index that is not below the
    size appends. *)
Definition Array_insert (indexToInsertAt : nat) (newElement : String) (a : list String) : list String :=
  if (indexToInsertAt <? length a)%nat
  then take indexToInsertAt a ++ newElement :: drop indexToInsertAt a
  else a ++ [newElement].

(** [Array::remove] is stdpp's [delete] on lists (an index out of range
    removes nothing); [Array::getReference] is the lookup [a !! i], [None]
    for an index out of range (the source asserts it is in range). *)

(** ** addPooledString (StringPool.cpp, lines 66-104) *)

(** The template parameter [NewStringType]: the comparator overload chosen
    for it and the [String] that [strings.insert (start, newString)] stores,
    a copy for a [String] argument, a new [String] otherwise. *)
Class NewStringType (T : Type) := {
  compareStrings : T -> String -> Z;
  toString : T -> Heap -> String * Heap
}.

#[global] Instance NewStringType_String : NewStringType String := {
  compareStrings := compareStrings_String;
  toString := fun s h => (s, retain s h)
}.

#[global] Instance NewStringType_CharPointer : NewStringType CharBuffer := {
  compareStrings := compareStrings_CharPointer;
  toString := fun s h => String_construct (contentOf s) h
}.

#[global] Instance NewStringType_StartEndString : NewStringType StartEndString := {
  compareStrings := compareStrings_StartEndString;
  toString := fun s h => String_construct (rangeContent s) h
}.

(** What one iteration of the [while] loop does. *)
Inductive LoopStep :=
| Return (s : String)              (* return startString / halfwayString *)
| Break (start : nat)              (* break, with the final [start] *)
| Continue (start end_ : nat)      (* next iteration on the new bounds *)
| OutOfRange.                      (* getReference on an index out of range *)

(** The body of the loop, lines 74-99, entered with [start < end]. *)
Definition loop_body {T} `{NewStringType T}
    (strings : list String) (newString : T) (start end_ : nat) : LoopStep :=
  match strings !! start with
  | None => OutOfRange
  | Some startString =>
      let startComp := compareStrings newString startString in
      if startComp =? 0 then Return startString
      else
        let halfway := ((start + end_) / 2)%nat in
        if (halfway =? start)%nat
        then Break (if 0 <? startComp then S start else start)
        else
          match strings !! halfway with
          | None => OutOfRange
          | Some halfwayString =>
              let halfwayComp := compareStrings newString halfwayString in
              if halfwayComp =? 0 then Return halfwayString
              else if 0 <? halfwayComp then Continue halfway end_
                   else Continue start halfway
          end
  end.

(** How the loop is left. *)
Inductive LoopExit :=
| Found (s : String)
| InsertAt (start : nat).

(** [while (start < end) { ... }]: [fuel] bounds the number of iterations,
    [None] when it runs out or an index is out of range.  Here the indices
    are natural numbers, which is what the [int]s of the source are as long
    as [start + end] stays in range, on tables of [2^30] entries at most;
    [loop_body_int] and [search_loop_int] below are the loop on [int]s. *)
Fixpoint search_loop {T} `{NewStringType T} (fuel : nat)
    (strings : list String) (newString : T) (start end_ : nat) : option LoopExit :=
  if (start <? end_)%nat then
    match fuel with
    | O => None
    | S fuel' =>
        match loop_body strings newString start end_ with
        | Return s => Some (Found s)
        | Break start' => Some (InsertAt start')
        | Continue start' end' => search_loop fuel' strings newString start' end'
        | OutOfRange => None
        end
    end
  else Some (InsertAt start).

(** [addPooledString (strings, newString)]: the returned [String] (a copy,
    hence one more holder), the table and the heap afterwards. *)
Definition addPooledString {T} `{NewStringType T}
    (strings : list String) (newString : T) (h : Heap) : option (String * list String * Heap) :=
  match search_loop (S (length strings)) strings newString 0 (length strings) with
  | None => None
  | Some (Found s) => Some (s, strings, retain s h)
  | Some (InsertAt start) =>
      let '(s, h1) := toString newString h in
      let strings' := Array_insert start s strings in
      match strings' !! start with
      | Some r => Some (r, strings', retain r h1)
      | None => None
      end
  end.

(** ** The pool *)

Definition minNumberOfStringsForGarbageCollection : Z := 300.
Definition garbageCollectionInterval : Z := 30000.

(** [uint32] arithmetic. *)
Definition uint32 (x : Z) : Z := x mod 2 ^ 32.

(** The members of [StringPool] (the lock apart).  Modelled from the spec:
    they are declared in StringPool.h; the timestamp is a [uint32] count of
    milliseconds, "a single monotonic millisecond value". *)
Record StringPool := mkStringPool {
  strings : list String;
  lastGarbageCollectionTime : Z
}.

(** [StringPool::StringPool()]. *)
Definition newStringPool : StringPool := mkStringPool [] 0.

(** The loop of [garbageCollect]: [for (int i = strings.size(); --i >= 0;)];
    the argument is [i] before its decrement. *)
Fixpoint garbageCollect_loop (i : nat) (h : Heap) (a : list String) : option (Heap * list String) :=
  match i with
  | O => Some (h, a)
  | S i' =>
      match a !! i' with
      | None => None
      | Some s =>
          if (getReferenceCount h s =? 1)%nat
          then garbageCollect_loop i' (release s h) (delete i' a)
          else garbageCollect_loop i' h a
      end
  end.

(** [StringPool::garbageCollect()].  Modelled from the spec: the clock
    ("a function returning an approximate current time in milliseconds") is
    the argument [now], the [uint32] that
    [Time::getApproximateMillisecondCounter()] returns during the call. *)
Definition garbageCollect (now : Z) (h : Heap) (p : StringPool) : option (Heap * StringPool) :=
  match garbageCollect_loop (length (strings p)) h (strings p) with
  | None => None
  | Some (h', a) => Some (h', mkStringPool a now)
  end.

(** The guard of [garbageCollectIfNeeded]; the sum is a [uint32]. *)
Definition garbageCollectNeeded (now : Z) (p : StringPool) : bool :=
  (minNumberOfStringsForGarbageCollection <? Z.of_nat (length (strings p)))
  && (uint32 (lastGarbageCollectionTime p + garbageCollectionInterval) <? now).

(** [StringPool::garbageCollectIfNeeded()]. *)
Definition garbageCollectIfNeeded (now : Z) (h : Heap) (p : StringPool) : option (Heap * StringPool) :=
  if garbageCollectNeeded now p then garbageCollect now h p else Some (h, p).

(** The common tail of the four [getPooledString] overloads: under the lock,
    [garbageCollectIfNeeded(); return addPooledString (strings, newString);]. *)
Definition lockedAdd {T} `{NewStringType T} (newString : T) (now : Z) (h : Heap) (p : StringPool)
    : option (String * Heap * StringPool) :=
  match garbageCollectIfNeeded now h p with
  | None => None
  | Some (h1, p1) =>
      match addPooledString (strings p1) newString h1 with
      | None => None
      | Some (r, a, h2) => Some (r, h2, mkStringPool a (lastGarbageCollectionTime p1))
      end
  end.

(** [getPooledString] for a [const char*] argument; [None] is [nullptr]. *)
Definition getPooledString_cstr (newString : option CharBuffer) (now : Z) (h : Heap) (p : StringPool)
    : option (String * Heap * StringPool) :=
  match newString with
  | None => Some (emptyString, h, p)
  | Some buf =>
      if CharPointer_isEmpty buf 0 then Some (emptyString, h, p)
      else lockedAdd buf now h p
  end.

(** [getPooledString (String::CharPointerType start, String::CharPointerType end)]. *)
Definition getPooledString_range (buf : CharBuffer) (start end_ : nat) (now : Z) (h : Heap) (p : StringPool)
    : option (String * Heap * StringPool) :=
  if CharPointer_isEmpty buf start || (start =? end_)%nat then Some (emptyString, h, p)
  else lockedAdd (mkStartEndString buf start end_) now h p.

(** [getPooledString (StringRef)]; [newString.text] is a character pointer. *)
Definition getPooledString_StringRef (newString : CharBuffer) (now : Z) (h : Heap) (p : StringPool)
    : option (String * Heap * StringPool) :=
  if CharPointer_isEmpty newString 0 then Some (emptyString, h, p)
  else lockedAdd newString now h p.

(** [getPooledString (const String&)]. *)
Definition getPooledString_String (newString : String) (now : Z) (h : Heap) (p : StringPool)
    : option (String * Heap * StringPool) :=
  if String_isEmpty newString then Some (emptyString, h, p)
  else lockedAdd newString now h p.

(** ** The callers' view *)

(** The argument of [addPooledString]: one of the three types the template
    is instantiated with. *)
Inductive NewString :=
| OfString (s : String)
| OfCharPointer (s : CharBuffer)
| OfStartEnd (s : StartEndString).

Definition newStringContent (x : NewString) : list positive :=
  match x with
  | OfString s => text s
  | OfCharPointer s => contentOf s
  | OfStartEnd s => rangeContent s
  end.

(** Overload resolution: the comparator, the loop and the function each
    instantiation runs. *)
Definition compareStringsFor (x : NewString) (s2 : String) : Z :=
  match x with
  | OfString s => compareStrings s s2
  | OfCharPointer s => compareStrings s s2
  | OfStartEnd s => compareStrings s s2
  end.

Definition loop_bodyFor (a : list String) (x : NewString) (start end_ : nat) : LoopStep :=
  match x with
  | OfString s => loop_body a s start end_
  | OfCharPointer s => loop_body a s start end_
  | OfStartEnd s => loop_body a s start end_
  end.

Definition search_loopFor (fuel : nat) (a : list String) (x : NewString) (start end_ : nat)
    : option LoopExit :=
  match x with
  | OfString s => search_loop fuel a s start end_
  | OfCharPointer s => search_loop fuel a s start end_
  | OfStartEnd s => search_loop fuel a s start end_
  end.

Definition addPooledStringFor (a : list String) (x : NewString) (h : Heap)
    : option (String * list String * Heap) :=
  match x with
  | OfString s => addPooledString a s h
  | OfCharPointer s => addPooledString a s h
  | OfStartEnd s => addPooledString a s h
  end.

(** The four input shapes of [getPooledString]. *)
Inductive Input :=
| RawBuffer (newString : option CharBuffer)
| CharRange (buf : CharBuffer) (start end_ : nat)
| Reference (newString : CharBuffer)
| Owned (newString : String).

Definition getPooledString (i : Input) (now : Z) (h : Heap) (p : StringPool)
    : option (String * Heap * StringPool) :=
  match i with
  | RawBuffer s => getPooledString_cstr s now h p
  | CharRange buf start end_ => getPooledString_range buf start end_ now h p
  | Reference s => getPooledString_StringRef s now h p
  | Owned s => getPooledString_String s now h p
  end.

(** The content of an input: what it is normalised to. *)
Definition inputContent (i : Input) : list positive :=
  match i with
  | RawBuffer None => []
  | RawBuffer (Some s) => contentOf s
  | CharRange buf start end_ => rangeContent (mkStartEndString buf start end_)
  | Reference s => contentOf s
  | Owned s => text s
  end.

(** A range as the source's types mean it: its end is not before its start. *)
Definition validInput (i : Input) : Prop :=
  match i with
  | CharRange _ start end_ => (start <= end_)%nat
  | _ => True
  end.

(** A [String] argument with content has storage of its own: only the empty
    [String] points to the static empty holder. *)
Definition ownsStorage (i : Input) : Prop :=
  match i with
  | Owned s => holder s = emptyHolder -> text s = []
  | _ => True
  end.

(** What happens to a pool: interning, an explicit [garbageCollect()], and
    the holders outside the pool copying and destroying handles. *)
Inductive Op :=
| Intern (i : Input) (now : Z)
| Collect (now : Z)
| Acquire (s : String)
| Release (s : String).

Definition step (o : Op) (h : Heap) (p : StringPool) : option (Heap * StringPool) :=
  match o with
  | Intern i now =>
      match getPooledString i now h p with
      | Some (_, h', p') => Some (h', p')
      | None => None
      end
  | Collect now => garbageCollect now h p
  | Acquire s => Some (retain s h, p)
  | Release s => Some (release s h, p)
  end.

Fixpoint run (ops : list Op) (h : Heap) (p : StringPool) : option (Heap * StringPool) :=
  match ops with
  | [] => Some (h, p)
  | o :: ops' =>
      match step o h p with
      | Some (h', p') => run ops' h' p'
      | None => None
      end
  end.

(** ** The order of the table *)

(** Strict lexicographic order over code points, defined on its own. *)
Inductive lex_lt : list positive -> list positive -> Prop :=
| lex_lt_nil c r : lex_lt [] (c :: r)
| lex_lt_head c1 c2 r1 r2 : (c1 < c2)%positive -> lex_lt (c1 :: r1) (c2 :: r2)
| lex_lt_tail c r1 r2 : lex_lt r1 r2 -> lex_lt (c :: r1) (c :: r2).

(** [table[i] < table[j]], by the comparator of the table's own type. *)
Definition String_lt (s1 s2 : String) : Prop := compareStrings_String s1 s2 < 0.

(** The invariant of the table. *)
Definition sortedTable (a : list String) : Prop := StronglySorted String_lt a.


(** All entries below, respectively above, a content. *)
Definition below (c : list positive) (a : list String) : Prop :=
  Forall (fun s => lex_lt (text s) c) a.
Definition above (c : list positive) (a : list String) : Prop :=
  Forall (fun s => lex_lt c (text s)) a.

(** The argument [x] stands for the content [c]: its comparator compares [c]
    and the [String] stored for it has the text [c]. *)
Definition storesContent {T} `{NewStringType T} (x : T) (c : list positive) : Prop :=
  (forall s, compareStrings x s = String_compare c (text s))
  /\ (forall h, text (toString x h).1 = c).

(** The [String] stored for [x] has storage of its own, held at least once,
    and making it lowers no count of storage in use. *)
Definition keepsCounts {T} `{NewStringType T} (x : T) : Prop :=
  forall h,
    holder (toString x h).1 <> emptyHolder
    /\ (1 <= getReferenceCount (toString x h).2 (toString x h).1)%nat
    /\ (forall s', (1 <= getReferenceCount h s')%nat ->
                   (getReferenceCount h s' <= getReferenceCount (toString x h).2 s')%nat).

(** The pool is the sole holder of the entry. *)
Definition soleHolder (h : Heap) (s : String) : Prop := getReferenceCount h s = 1%nat.

#[global] Instance soleHolder_dec h s : Decision (soleHolder h s).
Proof. unfold soleHolder. apply _. Defined.

(** The guard of each overload: the input is null or empty. *)
Definition isEmptyInput (i : Input) : bool :=
  match i with
  | RawBuffer None => true
  | RawBuffer (Some s) => CharPointer_isEmpty s 0
  | CharRange buf start end_ => CharPointer_isEmpty buf start || (start =? end_)%nat
  | Reference s => CharPointer_isEmpty s 0
  | Owned s => String_isEmpty s
  end.

(** The collection pass with the result [r], run on the pool [p], removed no
    entry. *)
Definition keepsTable (r : option (Heap * StringPool)) (p : StringPool) : bool :=
  match r with
  | Some (_, p') => bool_decide (strings p' = strings p)
  | None => false
  end.

(** The operation runs no collection pass that removes an entry. *)
Definition collectsNothing (o : Op) (h : Heap) (p : StringPool) : bool :=
  match o with
  | Intern i now => isEmptyInput i || keepsTable (garbageCollectIfNeeded now h p) p
  | Collect now => keepsTable (garbageCollect now h p) p
  | Acquire _ | Release _ => true
  end.

(** No collection pass removes an entry during the operations. *)
Fixpoint keepsEntries (ops : list Op) (h : Heap) (p : StringPool) : bool :=
  match ops with
  | [] => true
  | o :: ops' =>
      collectsNothing o h p
      && match step o h p with
         | Some (h', p') => keepsEntries ops' h' p'
         | None => false
         end
  end.

(** A table of [n] one-character strings that nobody outside the pool holds:
    entry [k] has the text [[k]] and the storage [k]. *)
Definition unheldEntry (k : nat) : String := mkString k [Pos.of_nat k].
Definition unheldTable (n : nat) : list String := unheldEntry <$> seq 1 n.
Definition unheldHeap (n : nat) : Heap := list_to_map ((fun k => (k, 1%nat)) <$> seq 1 n).



(** An operation other than an explicit [garbageCollect()]. *)
Definition noCollect (o : Op) : Prop :=
  match o with
  | Collect _ => False
  | _ => True
  end.


(** ** The loop on the source's [int] indices *)

(** [int]: 32 bits, two's complement.  A sum out of range is undefined in
    C++; it is taken to wrap around, as it does on the usual targets. *)
Definition int32 (x : Z) : Z := (x + 2 ^ 31) mod 2 ^ 32 - 2 ^ 31.

(** Modelled from the spec: [Array::getReference] (Array.h) at an [int]
    index; there is no element below zero or from the size on (the source
    asserts that the index is in range). *)
Definition Array_getReference (a : list String) (i : Z) : option String :=
  if i <? 0 then None else a !! Z.to_nat i.

Inductive IntLoopStep :=
| IntReturn (s : String)
| IntBreak (start : Z)
| IntContinue (start end_ : Z)
| IntOutOfRange.

(** The body of the loop, lines 74-99, with [start], [end] and [halfway] the
    [int]s they are in the source: [(start + end) / 2] is the wrapped sum
    divided towards zero.  [loop_body] above is this body on tables of at
    most [2^30] entries, where the sum does not wrap. *)
Definition loop_body_int {T} `{NewStringType T}
    (strings : list String) (newString : T) (start end_ : Z) : IntLoopStep :=
  match Array_getReference strings start with
  | None => IntOutOfRange
  | Some startString =>
      let startComp := compareStrings newString startString in
      if startComp =? 0 then IntReturn startString
      else
        let halfway := Z.quot (int32 (start + end_)) 2 in
        if halfway =? start
        then IntBreak (if 0 <? startComp then int32 (start + 1) else start)
        else
          match Array_getReference strings halfway with
          | None => IntOutOfRange
          | Some halfwayString =>
              let halfwayComp := compareStrings newString halfwayString in
              if halfwayComp =? 0 then IntReturn halfwayString
              else if 0 <? halfwayComp then IntContinue halfway end_
                   else IntContinue start halfway
          end
  end.

Inductive IntLoopExit :=
| IntFound (s : String)
| IntInsertAt (start : Z)
| IntFault.                        (* a read outside the table *)

(** [while (start < end) { ... }] on [int]s; [None] when the fuel runs out,
    [IntFault] when [getReference] is given an index out of range. *)
Fixpoint search_loop_int {T} `{NewStringType T} (fuel : nat)
    (strings : list String) (newString : T) (start end_ : Z) : option IntLoopExit :=
  if start <? end_ then
    match fuel with
    | O => None
    | S fuel' =>
        match loop_body_int strings newString start end_ with
        | IntReturn s => Some (IntFound s)
        | IntBreak start' => Some (IntInsertAt start')
        | IntContinue start' end' => search_loop_int fuel' strings newString start' end'
        | IntOutOfRange => Some IntFault
        end
    end
  else Some (IntInsertAt start).

Definition loop_body_intFor (a : list String) (x : NewString) (start end_ : Z) : IntLoopStep :=
  match x with
  | OfString s => loop_body_int a s start end_
  | OfCharPointer s => loop_body_int a s start end_
  | OfStartEnd s => loop_body_int a s start end_
  end.

Definition search_loop_intFor (fuel : nat) (a : list String) (x : NewString) (start end_ : Z)
    : option IntLoopExit :=
  match x with
  | OfString s => search_loop_int fuel a s start end_
  | OfCharPointer s => search_loop_int fuel a s start end_
  | OfStartEnd s => search_loop_int fuel a s start end_
  end.

(** Modelled from the spec: [Array::insert] (Array.h) at an [int] index; an
    index below zero appends, as an index from the size on does. *)
Definition Array_insert_int (indexToInsertAt : Z) (newElement : String) (a : list String)
    : list String :=
  if indexToInsertAt <? 0 then a ++ [newElement]
  else Array_insert (Z.to_nat indexToInsertAt) newElement a.

(** [addPooledString] with the loop on [int]s; [None] also when the loop
    reads outside the table. *)
Definition addPooledString_int {T} `{NewStringType T}
    (strings : list String) (newString : T) (h : Heap) : option (String * list String * Heap) :=
  match search_loop_int (S (length strings)) strings newString 0 (Z.of_nat (length strings)) with
  | None | Some IntFault => None
  | Some (IntFound s) => Some (s, strings, retain s h)
  | Some (IntInsertAt start) =>
      let '(s, h1) := toString newString h in
      let strings' := Array_insert_int start s strings in
      match Array_getReference strings' start with
      | Some r => Some (r, strings', retain r h1)
      | None => None
      end
  end.

Definition addPooledString_intFor (a : list String) (x : NewString) (h : Heap)
    : option (String * list String * Heap) :=
  match x with
  | OfString s => addPooledString_int a s h
  | OfCharPointer s => addPooledString_int a s h
  | OfStartEnd s => addPooledString_int a s h
  end.

(** A step and a result of the loop on natural numbers, as [int]s. *)
Definition intStep (r : LoopStep) : IntLoopStep :=
  match r with
  | Return s => IntReturn s
  | Break i => IntBreak (Z.of_nat i)
  | Continue i j => IntContinue (Z.of_nat i) (Z.of_nat j)
  | OutOfRange => IntOutOfRange
  end.

Definition intExit (r : LoopExit) : IntLoopExit :=
  match r with
  | Found s => IntFound s
  | InsertAt i => IntInsertAt (Z.of_nat i)
  end.

(** A table on which [start + end] leaves the [int] range: [2^30 + 1]
    strings of three characters each, entry [k] spelling [k] in base 2048 with
    the digits U+0100 to U+08FF, each with storage of its own; and a string
    above all of them. *)
Definition wideEntry (k : nat) : String :=
  mkString (S k)
    [Z.to_pos (256 + Z.of_nat k / 4194304);
     Z.to_pos (256 + (Z.of_nat k / 2048) mod 2048);
     Z.to_pos (256 + Z.of_nat k mod 2048)].
Definition wideTable (n : nat) : list String := wideEntry <$> seq 0 n.
Definition overflowSize : nat := Z.to_nat (2 ^ 30 + 1).
Definition aboveWide : NewString := OfCharPointer [3000%N].

(** ** Threads *)



(** ** Facts about the comparators *)

Lemma String_compare_cases s1 s2 :
  String_compare s1 s2 = -1 \/ String_compare s1 s2 = 0 \/ String_compare s1 s2 = 1.
Proof.
  revert s2; induction s1 as [|c1 r1 IH]; intros [|c2 r2]; simpl; auto.
  destruct (c1 ?= c2)%positive; auto.
Qed.

Lemma String_compare_refl s : String_compare s s = 0.
Proof. induction s as [|c r IH]; simpl; [done|]. by rewrite Pos.compare_refl. Qed.

Lemma String_compare_eq s1 s2 : String_compare s1 s2 = 0 <-> s1 = s2.
Proof.
  split; [|intros ->; apply String_compare_refl].
  revert s2; induction s1 as [|c1 r1 IH]; intros [|c2 r2]; simpl; try done.
  destruct (c1 ?= c2)%positive eqn:E; try done.
  apply Pos.compare_eq in E. intros H. f_equal; auto.
Qed.

Lemma String_compare_antisym s1 s2 : String_compare s2 s1 = - String_compare s1 s2.
Proof.
  revert s2; induction s1 as [|c1 r1 IH]; intros [|c2 r2]; simpl; try done.
  rewrite (Pos.compare_antisym c1 c2).
  destruct (c1 ?= c2)%positive; simpl; auto.
Qed.

Lemma String_compare_lt s1 s2 : String_compare s1 s2 < 0 <-> lex_lt s1 s2.
Proof.
  split.
  - revert s2; induction s1 as [|c1 r1 IH]; intros [|c2 r2]; simpl; try lia.
    + intros _. constructor.
    + destruct (c1 ?= c2)%positive eqn:E; try lia.
      * apply Pos.compare_eq in E as ->. intros H. apply lex_lt_tail; auto.
      * intros _. apply lex_lt_head. by apply Pos.compare_lt_iff.
  - induction 1 as [c r|c1 c2 r1 r2 H|c r1 r2 H IH]; simpl; try lia.
    + apply Pos.compare_lt_iff in H. rewrite H. lia.
    + by rewrite Pos.compare_refl.
Qed.

Lemma String_compare_gt s1 s2 : 0 < String_compare s1 s2 <-> lex_lt s2 s1.
Proof. rewrite <- String_compare_lt, (String_compare_antisym s1 s2). lia. Qed.

Lemma lex_lt_trans s1 s2 s3 : lex_lt s1 s2 -> lex_lt s2 s3 -> lex_lt s1 s3.
Proof.
  intros H; revert s3; induction H as [c r|c1 c2 r1 r2 H|c r1 r2 H IH];
    intros s3 H3; inversion H3; subst.
  - constructor.
  - constructor.
  - apply lex_lt_head; lia.
  - by apply lex_lt_head.
  - by apply lex_lt_head.
  - apply lex_lt_tail; auto.
Qed.

Lemma lex_lt_irrefl s : ~ lex_lt s s.
Proof. intros H%String_compare_lt. rewrite String_compare_refl in H. lia. Qed.

#[global] Instance String_lt_trans : Transitive String_lt.
Proof.
  intros x y z. unfold String_lt, compareStrings_String.
  rewrite !String_compare_lt. apply lex_lt_trans.
Qed.

(** The slice a range denotes, one code point at a time. *)
Lemma slice_step (buf : CharBuffer) (s1 e : nat) :
  (s1 < e)%nat ->
  take (e - s1) (drop s1 buf) =
    match buf !! s1 with
    | Some c => c :: take (e - S s1) (drop (S s1) buf)
    | None => []
    end.
Proof.
  intros Hlt. destruct (buf !! s1) as [c|] eqn:E.
  - rewrite (drop_S _ _ _ E). replace (e - s1)%nat with (S (e - S s1)) by lia. done.
  - apply lookup_ge_None in E. rewrite drop_ge by lia. by rewrite take_nil.
Qed.

Lemma nth_lookup_N (buf : CharBuffer) (p : nat) :
  nth p buf 0%N = default 0%N (buf !! p).
Proof. apply nth_lookup. Qed.

(** The range comparator is the lexicographic comparison of the range's
    content with the stored text. *)
Lemma compareStrings_loop_spec buf e s2 : forall s1,
  compareStrings_loop buf s1 e s2
  = String_compare (contentOf (take (e - s1) (drop s1 buf))) s2.
Proof.
  induction s2 as [|c2 r2 IH]; intros s1.
  - simpl. destruct (s1 <? e)%nat eqn:Hlt.
    + apply Nat.ltb_lt in Hlt. rewrite (slice_step _ _ _ Hlt).
      simpl. rewrite nth_lookup_N.
      destruct (buf !! s1) as [[|c]|]; simpl; try done.
    + apply Nat.ltb_ge in Hlt. replace (e - s1)%nat with 0%nat by lia. done.
  - cbn [compareStrings_loop String_read]. destruct (s1 <? e)%nat eqn:Hlt.
    + apply Nat.ltb_lt in Hlt. rewrite (slice_step _ _ _ Hlt).
      unfold getAndAdvance. rewrite nth_lookup_N.
      destruct (buf !! s1) as [[|c]|]; simpl; try done.
      rewrite <- IH.
      destruct (Pos.compare_spec c c2) as [->|H|H].
      * by rewrite Z.sub_diag.
      * destruct (Z.eqb_spec (Z.pos c - Z.pos c2) 0); [lia|]. simpl.
        destruct (Z.ltb_spec (Z.pos c - Z.pos c2) 0); [done|lia].
      * destruct (Z.eqb_spec (Z.pos c - Z.pos c2) 0); [lia|]. simpl.
        destruct (Z.ltb_spec (Z.pos c - Z.pos c2) 0); [lia|done].
    + apply Nat.ltb_ge in Hlt. replace (e - s1)%nat with 0%nat by lia. done.
Qed.

(** ** Facts about sorted tables *)

Lemma String_lt_lex s1 s2 : String_lt s1 s2 <-> lex_lt (text s1) (text s2).
Proof. unfold String_lt, compareStrings_String. apply String_compare_lt. Qed.

Lemma sortedTable_sublist (a1 a2 : list String) :
  sublist a1 a2 -> sortedTable a2 -> sortedTable a1.
Proof.
  unfold sortedTable. induction 1 as [|s a1 a2 Hsub IH|s a1 a2 Hsub IH]; intros Hs.
  - constructor.
  - apply StronglySorted_inv in Hs as [Hs Hall]. constructor; [auto|].
    rewrite Forall_forall in *. intros y Hy. apply Hall.
    eapply elem_of_sublist; [exact Hy|exact Hsub].
  - apply StronglySorted_inv in Hs as [Hs _]. auto.
Qed.

(** A strictly sorted table has one entry per content. *)
Lemma sortedTable_text_inj (a : list String) (s e : String) :
  sortedTable a -> s ∈ a -> e ∈ a -> text s = text e -> s = e.
Proof.
  unfold sortedTable. induction 1 as [|y a Hs IH Hall]; intros Hs1 He Ht.
  - by apply elem_of_nil in Hs1.
  - rewrite Forall_forall in Hall.
    apply elem_of_cons in Hs1 as [->|Hs1]; apply elem_of_cons in He as [->|He]; auto.
    + apply Hall, String_lt_lex in He.
      rewrite Ht in He. by apply lex_lt_irrefl in He.
    + apply Hall, String_lt_lex in Hs1.
      rewrite Ht in Hs1. by apply lex_lt_irrefl in Hs1.
Qed.

(** The entries before an entry are below it, the entries from it on are
    not below it. *)
Lemma sortedTable_take_below (a : list String) (k : nat) (s : String) (c : list positive) :
  sortedTable a -> a !! k = Some s -> lex_lt (text s) c -> below c (take (S k) a).
Proof.
  intros Hs Hk Hlt. rewrite (take_S_r _ _ _ Hk).
  rewrite <- (take_drop k a) in Hs. rewrite (drop_S _ _ _ Hk) in Hs.
  apply StronglySorted_app in Hs as (Hx & _ & _).
  unfold below. rewrite Forall_app, Forall_singleton. split; [|done].
  rewrite Forall_forall. intros y Hy.
  eapply lex_lt_trans; [|exact Hlt].
  apply String_lt_lex, Hx; [done|]. apply elem_of_cons; auto.
Qed.

Lemma sortedTable_drop_above (a : list String) (k : nat) (s : String) (c : list positive) :
  sortedTable a -> a !! k = Some s -> lex_lt c (text s) -> above c (drop k a).
Proof.
  intros Hs Hk Hlt. rewrite (drop_S _ _ _ Hk).
  rewrite <- (take_drop k a) in Hs. rewrite (drop_S _ _ _ Hk) in Hs.
  apply StronglySorted_app in Hs as (_ & _ & Hs).
  apply StronglySorted_inv in Hs as [_ Hall].
  unfold above. constructor; [done|].
  rewrite Forall_forall in *. intros y Hy.
  eapply lex_lt_trans; [exact Hlt|]. by apply String_lt_lex, Hall.
Qed.

(** Inserting between the entries below and the entries above keeps the
    table sorted. *)
Lemma sortedTable_insert (a : list String) (i : nat) (s : String) :
  sortedTable a -> below (text s) (take i a) -> above (text s) (drop i a) ->
  sortedTable (take i a ++ s :: drop i a).
Proof.
  intros Hs Hb Ha. unfold sortedTable, below, above in *.
  rewrite Forall_forall in Hb, Ha.
  pose proof Hs as Hs'. rewrite <- (take_drop i a) in Hs'.
  apply StronglySorted_app in Hs' as (Hx & Hs1 & Hs2).
  apply StronglySorted_app. split_and!; [|done|].
  - intros x1 x2 H1 [->|H2]%elem_of_cons.
    + by apply String_lt_lex, Hb.
    + auto.
  - constructor; [done|]. rewrite Forall_forall. intros y Hy.
    by apply String_lt_lex, Ha.
Qed.

Lemma Array_insert_take_drop (i : nat) (s : String) (a : list String) :
  (i <= length a)%nat -> Array_insert i s a = take i a ++ s :: drop i a.
Proof.
  intros Hi. unfold Array_insert. destruct (i <? length a)%nat eqn:E; [done|].
  apply Nat.ltb_ge in E. rewrite take_ge, drop_ge by lia. done.
Qed.

Lemma Array_insert_lookup (i : nat) (s : String) (a : list String) :
  (i <= length a)%nat -> Array_insert i s a !! i = Some s.
Proof.
  intros Hi. rewrite Array_insert_take_drop by done.
  rewrite lookup_app_r; rewrite length_take; [|lia].
  replace (i - i `min` length a)%nat with 0%nat by lia. done.
Qed.

Lemma Array_insert_length (i : nat) (s : String) (a : list String) :
  length (Array_insert i s a) = S (length a).
Proof.
  unfold Array_insert. destruct (i <? length a)%nat eqn:E.
  - apply Nat.ltb_lt in E. rewrite length_app, length_take. simpl.
    rewrite length_drop. lia.
  - rewrite length_app. simpl. lia.
Qed.

(** ** The binary search *)

Section BinarySearch.
Context {T : Type} `{NewStringType T}.
Variable x : T.
Variable a : list String.

Lemma halfway_bounds (start end_ : nat) :
  (2 * ((start + end_) / 2) <= start + end_ < 2 * ((start + end_) / 2) + 2)%nat.
Proof.
  pose proof (Nat.div_mod_eq (start + end_) 2).
  pose proof (Nat.mod_upper_bound (start + end_) 2). lia.
Qed.

(** One iteration, on bounds within the table: no index is out of range,
    and an iteration that goes on keeps one of the two halves of the
    range around [halfway], which lies strictly inside. *)
Lemma loop_body_step (start end_ : nat) :
  (start < end_ <= length a)%nat ->
  match loop_body a x start end_ with
  | Return s => s ∈ a
  | Break i => (end_ = S start) /\ (i = start \/ i = S start)
  | Continue start' end' =>
      (start < (start + end_) / 2 < end_)%nat
      /\ ((start' = ((start + end_) / 2)%nat /\ end' = end_)
          \/ (start' = start /\ end' = ((start + end_) / 2)%nat))
  | OutOfRange => False
  end.
Proof.
  intros [Hlt Hle]. unfold loop_body.
  pose proof (halfway_bounds start end_) as Hh.
  destruct (lookup_lt_is_Some_2 a start) as [s Hs]; [lia|]. rewrite Hs.
  destruct (compareStrings x s =? 0); [by eapply list_elem_of_lookup_2|].
  destruct (Nat.eqb_spec ((start + end_) / 2) start) as [E|E].
  - split; [lia|]. destruct (0 <? compareStrings x s); auto.
  - destruct (lookup_lt_is_Some_2 a ((start + end_) / 2)) as [s' Hs']; [lia|].
    rewrite Hs'.
    destruct (compareStrings x s' =? 0); [by eapply list_elem_of_lookup_2|].
    destruct (0 <? compareStrings x s'); (split; [lia|auto]).
Qed.

(** The loop ends within [f + 1] iterations on a range of at most [2 ^ f]
    entries. *)
Lemma search_loop_terminates (f : nat) : forall start end_,
  (end_ <= length a)%nat -> (end_ - start <= 2 ^ f)%nat ->
  exists r, search_loop (S f) a x start end_ = Some r.
Proof.
  induction f as [|f IH]; intros start end_ Hle Hsz.
  - cbn [search_loop]. destruct (Nat.ltb_spec start end_) as [Hlt|Hge]; [|eauto].
    pose proof (loop_body_step start end_ (conj Hlt Hle)) as Hb.
    destruct (loop_body a x start end_) as [s|i|s' e'|]; eauto; [|done].
    simpl in Hsz. lia.
  - cbn [search_loop]. destruct (Nat.ltb_spec start end_) as [Hlt|Hge]; [|eauto].
    pose proof (loop_body_step start end_ (conj Hlt Hle)) as Hb.
    pose proof (halfway_bounds start end_) as Hh.
    destruct (loop_body a x start end_) as [s|i|s' e'|]; eauto; [|done].
    rewrite Nat.pow_succ_r' in Hsz.
    destruct Hb as [Hin [[-> ->]|[-> ->]]]; apply IH; lia.
Qed.

(** More fuel does not change what the loop computes. *)
Lemma search_loop_fuel (f : nat) : forall f' start end_ r,
  search_loop f a x start end_ = Some r -> (f <= f')%nat ->
  search_loop f' a x start end_ = Some r.
Proof.
  induction f as [|f IH]; intros f' start end_ r Hr Hf.
  - simpl in Hr. destruct f'; simpl; destruct (start <? end_)%nat; done.
  - destruct f' as [|f']; [lia|]. cbn [search_loop] in *.
    destruct (start <? end_)%nat; [|done].
    destruct (loop_body a x start end_); try done. apply IH; [done|lia].
Qed.

Lemma length_le_pow2 (n : nat) : (n <= 2 ^ n)%nat.
Proof. apply Nat.lt_le_incl, Nat.pow_gt_lin_r. lia. Qed.

(** The content the comparator of [x] compares. *)
Variable c : list positive.
Hypothesis Hcmp : forall s, compareStrings x s = String_compare c (text s).

Lemma compare_zero s : (compareStrings x s =? 0) = true -> text s = c.
Proof. rewrite Hcmp. intros E%Z.eqb_eq. symmetry. by apply String_compare_eq. Qed.

Lemma compare_pos s :
  (compareStrings x s =? 0) = false -> (0 <? compareStrings x s) = true ->
  lex_lt (text s) c.
Proof. rewrite Hcmp. intros _ E%Z.ltb_lt. by apply String_compare_gt. Qed.

Lemma compare_neg s :
  (compareStrings x s =? 0) = false -> (0 <? compareStrings x s) = false ->
  lex_lt c (text s).
Proof.
  rewrite Hcmp. intros E1%Z.eqb_neq E2%Z.ltb_ge. apply String_compare_lt. lia.
Qed.

(** The loop invariant on a sorted table: the entries before [start] are
    below the content and the entries from [end] on are above it.  What the
    loop returns is an entry with the content, or the index that separates
    the entries below from the entries above. *)
Lemma search_loop_sound (Hs : sortedTable a) (f : nat) : forall start end_ r,
  (start <= end_ <= length a)%nat ->
  below c (take start a) -> above c (drop end_ a) ->
  search_loop f a x start end_ = Some r ->
  match r with
  | Found s => s ∈ a /\ text s = c
  | InsertAt i => (i <= length a)%nat /\ below c (take i a) /\ above c (drop i a)
  end.
Proof.
  induction f as [|f IH]; intros start end_ r Hb Hlo Hhi Hr.
  - simpl in Hr. destruct (Nat.ltb_spec start end_) as [Hlt|Hge]; [done|].
    injection Hr as <-. replace start with end_ in * by lia. auto with lia.
  - cbn [search_loop] in Hr.
    destruct (Nat.ltb_spec start end_) as [Hlt|Hge].
    2:{ injection Hr as <-. replace start with end_ in * by lia. auto with lia. }
    pose proof (halfway_bounds start end_) as Hh.
    unfold loop_body in Hr.
    destruct (a !! start) as [s|] eqn:Hst; [|done].
    destruct (compareStrings x s =? 0) eqn:E0.
    { injection Hr as <-. split; [by eapply list_elem_of_lookup_2|by apply compare_zero]. }
    destruct (Nat.eqb_spec ((start + end_) / 2) start) as [E|E].
    { injection Hr as <-. assert (end_ = S start) as -> by lia.
      destruct (0 <? compareStrings x s) eqn:E1.
      - split; [lia|]. split; [|done].
        eapply sortedTable_take_below; eauto using compare_pos.
      - split; [lia|]. split; [done|].
        eapply sortedTable_drop_above; eauto using compare_neg. }
    destruct (a !! ((start + end_) / 2)%nat) as [s'|] eqn:Hhalf; [|done].
    destruct (compareStrings x s' =? 0) eqn:E0'.
    { injection Hr as <-. split; [by eapply list_elem_of_lookup_2|by apply compare_zero]. }
    destruct (0 <? compareStrings x s') eqn:E1.
    + eapply (IH _ _ _ _ _ Hhi Hr). Unshelve. 1: lia.
      assert (below c (take (S ((start + end_) / 2)) a)) as Hbl
        by (eapply sortedTable_take_below; eauto using compare_pos).
      unfold below in *. rewrite (take_S_r _ _ _ Hhalf), Forall_app in Hbl. tauto.
    + eapply (IH _ _ _ _ Hlo _ Hr). Unshelve. 1: lia.
      eapply sortedTable_drop_above; eauto using compare_neg.
Qed.

(** On a sorted table the search ends, with an entry of the content or
    with the separating index. *)
Lemma search_loop_total (Hs : sortedTable a) :
  exists r, search_loop (S (length a)) a x 0 (length a) = Some r /\
    match r with
    | Found s => s ∈ a /\ text s = c
    | InsertAt i => (i <= length a)%nat /\ below c (take i a) /\ above c (drop i a)
    end.
Proof.
  destruct (search_loop_terminates (length a) 0 (length a)) as [r Hr];
    [lia|pose proof (length_le_pow2 (length a)); lia|].
  exists r. split; [done|].
  eapply (search_loop_sound Hs _ 0%nat (length a)); [lia| | |exact Hr].
  - constructor.
  - rewrite drop_all. constructor.
Qed.

(** An entry of the content is the one the search returns. *)
Lemma search_loop_found (Hs : sortedTable a) (e : String) :
  e ∈ a -> text e = c ->
  search_loop (S (length a)) a x 0 (length a) = Some (Found e).
Proof.
  intros He Ht. destruct (search_loop_total Hs) as (r & Hr & Hpost).
  rewrite Hr. do 2 f_equal. destruct r as [s|i].
  - destruct Hpost as [Hin Hts]. f_equal.
    apply (sortedTable_text_inj a); congruence.
  - exfalso. destruct Hpost as (_ & Hlo & Hhi).
    rewrite <- (take_drop i a) in He. apply elem_of_app in He as [He|He].
    + unfold below in Hlo. rewrite Forall_forall in Hlo.
      apply Hlo in He. rewrite Ht in He. by apply lex_lt_irrefl in He.
    + unfold above in Hhi. rewrite Forall_forall in Hhi.
      apply Hhi in He. rewrite Ht in He. by apply lex_lt_irrefl in He.
Qed.

(** Without an entry of the content the search returns the separating
    index. *)
Lemma search_loop_absent (Hs : sortedTable a) :
  (forall e, e ∈ a -> text e <> c) ->
  exists i, search_loop (S (length a)) a x 0 (length a) = Some (InsertAt i)
    /\ (i <= length a)%nat /\ below c (take i a) /\ above c (drop i a).
Proof.
  intros Hno. destruct (search_loop_total Hs) as (r & Hr & Hpost).
  destruct r as [s|i].
  - destruct Hpost as [Hin Hts]. by apply Hno in Hin.
  - eauto.
Qed.
End BinarySearch.

Lemma compareStringsFor_content (x : NewString) (s : String) :
  compareStringsFor x s = String_compare (newStringContent x) (text s).
Proof. destruct x as [s1|s1|s1]; simpl; try done. apply compareStrings_loop_spec. Qed.

(** ** Facts about reference counts *)

Lemma getReferenceCount_retain (s s' : String) (h : Heap) :
  getReferenceCount (retain s h) s' =
    if decide (holder s <> emptyHolder /\ holder s' = holder s)
    then S (getReferenceCount h s') else getReferenceCount h s'.
Proof.
  unfold retain, getReferenceCount.
  destruct (decide (holder s = emptyHolder)) as [E|E].
  - rewrite decide_False by tauto. done.
  - destruct (decide (holder s' = holder s)) as [->|E'].
    + rewrite decide_True by tauto. by rewrite lookup_insert_eq.
    + rewrite decide_False by tauto. by rewrite lookup_insert_ne.
Qed.

Lemma getReferenceCount_retain_le (s s' : String) (h : Heap) :
  (getReferenceCount h s' <= getReferenceCount (retain s h) s')%nat.
Proof. rewrite getReferenceCount_retain. case_decide; lia. Qed.

Lemma getReferenceCount_release_ne (s s' : String) (h : Heap) :
  holder s' <> holder s -> getReferenceCount (release s h) s' = getReferenceCount h s'.
Proof.
  intros Hne. unfold release, getReferenceCount.
  destruct (decide (holder s = emptyHolder)) as [E|E]; [done|].
  destruct (h !! holder s) as [[|[|k]]|].
  - by rewrite lookup_delete_ne.
  - by rewrite lookup_delete_ne.
  - by rewrite lookup_insert_ne.
  - by rewrite lookup_delete_ne.
Qed.


(** A constructed [String] has the wanted text; with content, its storage is
    new, held once, and no count of other storage changes. *)
Lemma String_construct_text (c : list positive) (h : Heap) :
  text (String_construct c h).1 = c.
Proof. destruct c; done. Qed.

Lemma String_construct_fresh (c : list positive) (h : Heap) :
  c <> [] ->
  holder (String_construct c h).1 <> emptyHolder
  /\ h !! holder (String_construct c h).1 = None
  /\ (String_construct c h).2 = <[holder (String_construct c h).1 := 1%nat]> h.
Proof.
  intros Hc. destruct c as [|c0 c]; [done|]. simpl.
  pose proof (is_fresh ({[emptyHolder]} ∪ dom h)) as Hf.
  split_and!; [set_solver| |done].
  apply not_elem_of_dom. set_solver.
Qed.

(** ** Facts about the collection loop *)

Lemma filter_ext_in {A} (P Q : A -> Prop) `{!forall x, Decision (P x)} `{!forall x, Decision (Q x)}
    (l : list A) :
  (forall x, x ∈ l -> P x <-> Q x) -> filter P l = filter Q l.
Proof.
  induction l as [|y l IH]; intros Hpq; [done|].
  rewrite !filter_cons.
  rewrite IH by (intros z Hz; apply Hpq; by apply elem_of_cons; right).
  destruct (decide (P y)) as [Hp|Hp], (decide (Q y)) as [Hq|Hq]; try done.
  - exfalso. apply Hq, Hpq; [apply elem_of_cons; auto|done].
  - exfalso. apply Hp, Hpq; [apply elem_of_cons; auto|done].
Qed.

Lemma take_delete_same {A} (l : list A) (i : nat) :
  (i <= length l)%nat -> take i (delete i l) = take i l.
Proof.
  intros Hi. rewrite delete_take_drop. apply take_app_length'.
  rewrite length_take. lia.
Qed.

Lemma drop_delete_same {A} (l : list A) (i : nat) :
  (i <= length l)%nat -> drop i (delete i l) = drop (S i) l.
Proof.
  intros Hi. rewrite delete_take_drop. apply drop_app_length'.
  rewrite length_take. lia.
Qed.

(** The backward scan never reads out of range and leaves a sub-sequence of
    the table, whatever the counts are. *)
Lemma garbageCollect_loop_sublist (i : nat) : forall (h : Heap) (a : list String),
  (i <= length a)%nat ->
  exists h' a', garbageCollect_loop i h a = Some (h', a') /\ sublist a' a.
Proof.
  induction i as [|i IH]; intros h a Hi; simpl.
  - by exists h, a.
  - destruct (lookup_lt_is_Some_2 a i) as [s Hs]; [lia|]. rewrite Hs.
    destruct (getReferenceCount h s =? 1)%nat.
    + destruct (IH (release s h) (delete i a)) as (h' & a' & Hr & Hsub).
      { rewrite length_delete by eauto. lia. }
      exists h', a'. split; [done|]. etrans; [exact Hsub|apply sublist_delete].
    + apply IH. lia.
Qed.


(** The scan from index [i] down removes, among the first [i] entries,
    exactly those the pool holds alone, and releases them. *)
Lemma garbageCollect_loop_spec (i : nat) : forall (h : Heap) (a : list String),
  (i <= length a)%nat -> NoDup (holder <$> a) ->
  garbageCollect_loop i h a =
    Some (foldr release h (filter (soleHolder h) (take i a)),
          filter (fun s => ~ soleHolder h s) (take i a) ++ drop i a).
Proof.
  induction i as [|i IH]; intros h a Hi Hnd.
  - done.
  - cbn [garbageCollect_loop].
    destruct (lookup_lt_is_Some_2 a i) as [s Hs]; [lia|]. rewrite Hs.
    rewrite (take_S_r _ _ _ Hs), !filter_app, !filter_cons, !filter_nil.
    assert (forall s', s' ∈ take i a -> holder s' <> holder s) as Hother.
    { intros s' Hs' Heq. rewrite <- (take_drop i a), (drop_S _ _ _ Hs) in Hnd.
      rewrite fmap_app, fmap_cons in Hnd. apply NoDup_app in Hnd as (_ & Hd & _).
      apply (Hd (holder s')); [by apply list_elem_of_fmap_2|].
      rewrite Heq. apply elem_of_cons; auto. }
    destruct (Nat.eqb_spec (getReferenceCount h s) 1) as [E|E].
    + rewrite IH.
      2:{ rewrite length_delete by eauto. lia. }
      2:{ rewrite list_fmap_delete. exact (sublist_NoDup _ _ Hnd (sublist_delete _ _)). }
      rewrite take_delete_same, drop_delete_same by lia.
      rewrite decide_True by done. rewrite decide_False by (unfold soleHolder; tauto).
      rewrite foldr_app. simpl. rewrite app_nil_r.
      rewrite (filter_ext_in (soleHolder (release s h)) (soleHolder h)).
      2:{ intros s' Hs'. unfold soleHolder.
          by rewrite getReferenceCount_release_ne by auto. }
      rewrite (filter_ext_in (fun s' => ~ soleHolder (release s h) s')
                             (fun s' => ~ soleHolder h s')).
      2:{ intros s' Hs'. unfold soleHolder.
          by rewrite getReferenceCount_release_ne by auto. }
      done.
    + rewrite IH by (done || lia).
      rewrite decide_False by done. rewrite decide_True by (unfold soleHolder; tauto).
      rewrite app_nil_r, <- app_assoc. simpl. by rewrite (drop_S _ _ _ Hs).
Qed.

(** ** Facts about addPooledString *)

Lemma storesContent_String (s : String) : storesContent s (text s).
Proof. by split. Qed.

Lemma storesContent_CharPointer (s : CharBuffer) : storesContent s (contentOf s).
Proof. split; [done|]. intros h. apply String_construct_text. Qed.

Lemma storesContent_StartEndString (s : StartEndString) : storesContent s (rangeContent s).
Proof.
  split; [|intros h; apply String_construct_text].
  intros s2. apply compareStrings_loop_spec.
Qed.

Lemma keepsCounts_String (s : String) : holder s <> emptyHolder -> keepsCounts s.
Proof.
  intros Hne h. simpl. split; [done|]. split.
  - rewrite getReferenceCount_retain. rewrite decide_True by done. lia.
  - intros s' _. apply getReferenceCount_retain_le.
Qed.

Lemma keepsCounts_construct (c : list positive) (h : Heap) :
  c <> [] ->
  holder (String_construct c h).1 <> emptyHolder
  /\ (1 <= getReferenceCount (String_construct c h).2 (String_construct c h).1)%nat
  /\ (forall s', (1 <= getReferenceCount h s')%nat ->
        (getReferenceCount h s' <= getReferenceCount (String_construct c h).2 s')%nat).
Proof.
  intros Hc. destruct (String_construct_fresh c h Hc) as (Hne & Hnone & ->).
  split; [done|]. unfold getReferenceCount. split.
  - by rewrite lookup_insert_eq.
  - intros s' Hs'. destruct (decide (holder s' = holder (String_construct c h).1)) as [E|E].
    + rewrite E, Hnone in Hs'. simpl in Hs'. lia.
    + by rewrite lookup_insert_ne.
Qed.

Lemma keepsCounts_CharPointer (s : CharBuffer) : contentOf s <> [] -> keepsCounts s.
Proof. intros Hc h. by apply keepsCounts_construct. Qed.

Lemma keepsCounts_StartEndString (s : StartEndString) : rangeContent s <> [] -> keepsCounts s.
Proof. intros Hc h. by apply keepsCounts_construct. Qed.

Section AddPooled.
Context {T : Type} `{NewStringType T}.
Variable x : T.
Variable c : list positive.
Hypothesis Hx : storesContent x c.

(** An entry of the content is returned, the table stays as it is. *)
Lemma addPooledString_found (a : list String) (h : Heap) (e : String) :
  sortedTable a -> e ∈ a -> text e = c ->
  addPooledString a x h = Some (e, a, retain e h).
Proof.
  intros Hs He Ht. unfold addPooledString.
  by rewrite (search_loop_found x a c (proj1 Hx) Hs e He Ht).
Qed.

(** What [addPooledString] does on a sorted table: it returns an entry of
    the content, either one of the table, which it leaves alone, or a new
    one, which it inserts between the entries below and the entries above. *)
Lemma addPooledString_total (a : list String) (h : Heap) :
  sortedTable a ->
  exists r a' h', addPooledString a x h = Some (r, a', h')
    /\ text r = c /\ r ∈ a' /\ sortedTable a'
    /\ ((r ∈ a /\ a' = a /\ h' = retain r h)
        \/ (exists i, (i <= length a)%nat /\ a' = take i a ++ r :: drop i a
              /\ below c (take i a) /\ above c (drop i a)
              /\ r = (toString x h).1 /\ h' = retain r (toString x h).2)).
Proof.
  intros Hs. unfold addPooledString.
  destruct (search_loop_total x a c (proj1 Hx) Hs) as (r & -> & Hpost).
  destruct r as [s|i].
  - destruct Hpost as [Hin Ht]. exists s, a, (retain s h). split_and!; auto.
  - destruct Hpost as (Hi & Hlo & Hhi).
    destruct (toString x h) as [s h1] eqn:Ets.
    assert (text s = c) as Hts by (rewrite <- (proj2 Hx h); by rewrite Ets).
    rewrite Array_insert_lookup, Array_insert_take_drop by done.
    exists s, (take i a ++ s :: drop i a), (retain s h1).
    split_and!; auto.
    + apply elem_of_app. right. apply elem_of_cons. auto.
    + apply sortedTable_insert; [done|by rewrite Hts..].
    + right. exists i. split_and!; auto.
Qed.

(** The table keeps its entries and grows by one entry at most; content
    that is in the table yields its entry and leaves the table as it is. *)
Lemma addPooledString_grows (a : list String) (h : Heap) :
sortedTable a ->
exists r a' h', addPooledString a x h = Some (r, a', h')
  /\ text r = c /\ r ∈ a' /\ sortedTable a'
  /\ (forall e, e ∈ a -> e ∈ a')
  /\ (length a' <= S (length a))%nat
  /\ (forall e, e ∈ a -> text e = c -> r = e /\ a' = a).
Proof.
intros Hs.
destruct (addPooledString_total a h Hs) as (r & a' & h' & Hr & Ht & Hin & Hs' & Hcase).
exists r, a', h'. split_and!; auto.
- destruct Hcase as [(_ & -> & _)|(i & _ & -> & _)]; [done|].
  intros e He. rewrite <- (take_drop i a) in He.
  apply elem_of_app in He as [He|He]; apply elem_of_app; [by left|right].
  apply elem_of_cons. by right.
- destruct Hcase as [(_ & -> & _)|(i & Hi & -> & _)]; [lia|].
  rewrite length_app, length_take. simpl. rewrite length_drop. lia.
- intros e He Hte.
  rewrite (addPooledString_found a h e Hs He Hte) in Hr. by injection Hr as <- <- <-.
Qed.

End AddPooled.

(** ** Facts about the collection and the guarded collection *)

Lemma garbageCollect_sublist (now : Z) (h : Heap) (p : StringPool) :
  exists h' a', garbageCollect now h p = Some (h', mkStringPool a' now)
    /\ sublist a' (strings p).
Proof.
  unfold garbageCollect.
  destruct (garbageCollect_loop_sublist (length (strings p)) h (strings p))
    as (h' & a' & -> & Hsub); [lia|]. by exists h', a'.
Qed.




(** ** Facts about the interning calls *)

Section LockedAdd.
Context {T : Type} `{NewStringType T}.
Variable x : T.
Variable c : list positive.
Hypothesis Hx : storesContent x c.


Lemma lockedAdd_kept (now : Z) (h : Heap) (p : StringPool) :
sortedTable (strings p) ->
keepsTable (garbageCollectIfNeeded now h p) p = true ->
exists r h' p', lockedAdd x now h p = Some (r, h', p')
  /\ sortedTable (strings p')
  /\ text r = c /\ r ∈ strings p'
  /\ (forall e, e ∈ strings p -> e ∈ strings p')
  /\ (length (strings p') <= S (length (strings p)))%nat
  /\ (forall e, e ∈ strings p -> text e = c -> r = e /\ strings p' = strings p).
Proof.
intros Hs Hk. unfold lockedAdd, keepsTable in *.
destruct (garbageCollectIfNeeded now h p) as [[h1 p1]|]; [|done].
apply bool_decide_eq_true in Hk. rewrite <- Hk in *.
destruct (addPooledString_grows x c Hx (strings p1) h1 Hs)
  as (r & a' & h' & -> & Ht & Hin & Hs' & Hmono & Hlen & Hfound).
by exists r, h', (mkStringPool a' (lastGarbageCollectionTime p1)).
Qed.
End LockedAdd.

Lemma getPooledString_empty (i : Input) (now : Z) (h : Heap) (p : StringPool) :
  isEmptyInput i = true -> getPooledString i now h p = Some (emptyString, h, p).
Proof.
  destruct i as [[s|]|buf start end_|s|s]; simpl; intros E;
    unfold getPooledString_cstr, getPooledString_range, getPooledString_StringRef,
      getPooledString_String; by rewrite ?E.
Qed.

Lemma CharPointer_isEmpty_content (s : CharBuffer) :
  CharPointer_isEmpty s 0 = true <-> contentOf s = [].
Proof.
  unfold CharPointer_isEmpty. destruct s as [|[|c] s]; simpl; split; try done.
Qed.

Lemma rangeContent_empty (buf : CharBuffer) (start end_ : nat) :
  (start <= end_)%nat ->
  CharPointer_isEmpty buf start || (start =? end_)%nat = true
  <-> rangeContent (mkStartEndString buf start end_) = [].
Proof.
  intros Hle. unfold rangeContent, CharPointer_isEmpty. simpl.
  rewrite orb_true_iff, N.eqb_eq, Nat.eqb_eq, nth_lookup_N.
  destruct (decide (start = end_)) as [->|Hne].
  - rewrite Nat.sub_diag. simpl. tauto.
  - rewrite slice_step by lia.
    destruct (buf !! start) as [[|c]|]; simpl; split; try done; auto.
    intros [?|?]; done.
Qed.

(** A valid input takes the fast path exactly when its content is empty. *)
Lemma isEmptyInput_content (i : Input) :
  validInput i -> (isEmptyInput i = true <-> inputContent i = []).
Proof.
  destruct i as [[s|]|buf start end_|s|s]; simpl; intros Hv.
  - apply CharPointer_isEmpty_content.
  - done.
  - by apply rangeContent_empty.
  - apply CharPointer_isEmpty_content.
  - unfold String_isEmpty. destruct (text s); split; done.
Qed.



(** ** Sequences of calls *)



(** The invariant, index by index. *)
Lemma sortedTable_lookup (a : list String) (i j : nat) (si sj : String) :
  sortedTable a -> (i < j)%nat -> a !! i = Some si -> a !! j = Some sj ->
  compareStrings_String si sj < 0.
Proof.
  intros Hs Hij Hi Hj. rewrite <- (take_drop j a) in Hs.
  apply StronglySorted_app in Hs as (Hx & _ & _). apply Hx.
  - apply list_elem_of_lookup. exists i. by rewrite lookup_take_lt.
  - apply list_elem_of_lookup. exists 0%nat. rewrite lookup_drop.
    by rewrite Nat.add_0_r.
Qed.

Lemma sortedTable_NoDup_text (a : list String) :
  sortedTable a -> NoDup (text <$> a).
Proof.
  intros Hs. apply NoDup_alt. intros i j c Hi Hj.
  rewrite list_lookup_fmap in Hi, Hj.
  destruct (a !! i) as [si|] eqn:Ei; [|done].
  destruct (a !! j) as [sj|] eqn:Ej; [|done].
  simpl in *. injection Hi as Hi. injection Hj as Hj.
  destruct (Nat.lt_total i j) as [Hlt|[->|Hlt]]; [|done|].
  - pose proof (sortedTable_lookup a i j si sj Hs Hlt Ei Ej) as Hc.
    apply String_compare_lt in Hc. rewrite Hi, Hj in Hc. by apply lex_lt_irrefl in Hc.
  - pose proof (sortedTable_lookup a j i sj si Hs Hlt Ej Ei) as Hc.
    apply String_compare_lt in Hc. rewrite Hi, Hj in Hc. by apply lex_lt_irrefl in Hc.
Qed.

(** ** Uniqueness and idempotence of interning *)

(** An interning call that collects no entry, on a valid input: the result
    has the content of the input; the table keeps its entries, stays sorted
    and grows by one entry at most; content that is in the table yields its
    entry and leaves the table as it is. *)
Lemma getPooledString_kept (i : Input) (now : Z) (h : Heap) (p : StringPool) :
  validInput i -> sortedTable (strings p) ->
  collectsNothing (Intern i now) h p = true ->
  exists r h' p', getPooledString i now h p = Some (r, h', p')
    /\ sortedTable (strings p')
    /\ text r = inputContent i
    /\ (inputContent i = [] -> r = emptyString /\ strings p' = strings p)
    /\ (inputContent i <> [] -> r ∈ strings p')
    /\ (forall e, e ∈ strings p -> e ∈ strings p')
    /\ (length (strings p') <= S (length (strings p)))%nat
    /\ (inputContent i <> [] ->
        forall e, e ∈ strings p -> text e = inputContent i ->
                  r = e /\ strings p' = strings p).
Proof.
  intros Hv Hs Hk. pose proof (isEmptyInput_content i Hv) as Hguard.
  simpl in Hk. destruct (isEmptyInput i) eqn:E.
  { rewrite getPooledString_empty by done. exists emptyString, h, p.
    assert (inputContent i = []) as Hc by tauto.
    split_and!; auto; done. }
  simpl in Hk.
  assert (inputContent i <> []) as Hc by (intros Hc; apply Hguard in Hc; done).
  assert (forall (T : Type) (HT : NewStringType T) (x : T),
    storesContent x (inputContent i) ->
    exists r h' p', lockedAdd x now h p = Some (r, h', p')
      /\ sortedTable (strings p')
      /\ text r = inputContent i
      /\ (inputContent i = [] -> r = emptyString /\ strings p' = strings p)
      /\ (inputContent i <> [] -> r ∈ strings p')
      /\ (forall e, e ∈ strings p -> e ∈ strings p')
      /\ (length (strings p') <= S (length (strings p)))%nat
      /\ (inputContent i <> [] ->
          forall e, e ∈ strings p -> text e = inputContent i ->
                    r = e /\ strings p' = strings p)) as Hgen.
  { intros T HT x Hx.
    destruct (lockedAdd_kept x _ Hx now h p Hs Hk)
      as (r & h' & p' & -> & Hs' & Ht & Hin & Hmono & Hlen & Hfound).
    exists r, h', p'. split_and!; auto; done. }
  destruct i as [[s|]|buf start end_|s|s]; simpl in *;
    unfold getPooledString_cstr, getPooledString_range, getPooledString_StringRef,
      getPooledString_String; rewrite ?E; try done.
  - apply Hgen, storesContent_CharPointer.
  - apply Hgen, storesContent_StartEndString.
  - apply Hgen, storesContent_CharPointer.
  - apply Hgen, storesContent_String.
Qed.

(** An operation that collects no entry returns, and the table keeps its
    entries, sorted. *)
Lemma step_kept (o : Op) (h : Heap) (p : StringPool) :
  sortedTable (strings p) -> collectsNothing o h p = true ->
  exists h' p', step o h p = Some (h', p')
    /\ sortedTable (strings p')
    /\ (forall e, e ∈ strings p -> e ∈ strings p').
Proof.
  intros Hs Hk. destruct o as [i now|now|s|s]; simpl in *.
  - destruct (isEmptyInput i) eqn:E.
    { rewrite getPooledString_empty by done. by exists h, p. }
    simpl in Hk.
    assert (forall (T : Type) (HT : NewStringType T) (x : T) (c : list positive),
      storesContent x c ->
      exists h' p',
        match lockedAdd x now h p with
        | Some (_, h', p') => Some (h', p')
        | None => None
        end = Some (h', p')
        /\ sortedTable (strings p')
        /\ (forall e, e ∈ strings p -> e ∈ strings p')) as Hgen.
    { intros T HT x c Hx.
      destruct (lockedAdd_kept x c Hx now h p Hs Hk)
        as (r & h' & p' & -> & Hs' & _ & _ & Hmono & _).
      by exists h', p'. }
    destruct i as [[s|]|buf start end_|s|s]; simpl in *;
      unfold getPooledString_cstr, getPooledString_range, getPooledString_StringRef,
        getPooledString_String; rewrite ?E; try done.
    + eapply Hgen, storesContent_CharPointer.
    + eapply Hgen, storesContent_StartEndString.
    + eapply Hgen, storesContent_CharPointer.
    + eapply Hgen, storesContent_String.
  - unfold keepsTable in Hk.
    destruct (garbageCollect now h p) as [[h' p']|]; [|done].
    apply bool_decide_eq_true in Hk. exists h', p'. rewrite Hk. by split_and!.
  - by exists (retain s h), p.
  - by exists (release s h), p.
Qed.

Lemma run_kept (ops1 ops2 : list Op) : forall (h : Heap) (p : StringPool),
  sortedTable (strings p) -> keepsEntries (ops1 ++ ops2) h p = true ->
  exists h' p', run ops1 h p = Some (h', p')
    /\ sortedTable (strings p')
    /\ (forall e, e ∈ strings p -> e ∈ strings p')
    /\ keepsEntries ops2 h' p' = true.
Proof.
  induction ops1 as [|o ops1 IH]; intros h p Hs Hk.
  - by exists h, p.
  - simpl in *. apply andb_true_iff in Hk as [Hk1 Hk2].
    destruct (step_kept o h p Hs Hk1) as (h1 & p1 & E & Hs1 & Hmono1).
    rewrite E in *.
    destruct (IH h1 p1 Hs1 Hk2) as (h' & p' & -> & Hs' & Hmono' & Hk').
    exists h', p'. split_and!; auto.
Qed.





(** ** The sortedness invariant *)


(** ** The collection pass *)

(** C3.  A collection pass on a table of distinct storage removes exactly the
    entries whose count is [1], the pool their sole holder: what is left is
    the table filtered, in order, so the backward scan misses no entry; an
    entry with a holder outside stays; the storage of the removed entries is
    released; and the pass ends with the timestamp at the clock value. *)
Theorem garbageCollect_removes_sole_held (now : Z) (h : Heap) (p : StringPool) :
  NoDup (holder <$> strings p) ->
  exists h' p', garbageCollect now h p = Some (h', p')
    /\ strings p' = filter (fun s => ~ soleHolder h s) (strings p)
    /\ (forall s, s ∈ strings p -> (2 <= getReferenceCount h s)%nat -> s ∈ strings p')
    /\ (forall s, s ∈ strings p -> getReferenceCount h s = 1%nat -> s ∉ strings p')
    /\ (forall s, s ∈ strings p' -> s ∈ strings p)
    /\ h' = foldr release h (filter (soleHolder h) (strings p))
    /\ lastGarbageCollectionTime p' = now.
Proof.
  intros Hnd. unfold garbageCollect.
  rewrite garbageCollect_loop_spec by (done || lia).
  rewrite firstn_all, drop_all, app_nil_r.
  eexists _, _. split; [reflexivity|]. simpl. split_and!; auto.
  - intros s Hin Hc. apply list_elem_of_filter. split; [|done].
    unfold soleHolder. lia.
  - intros s Hin Hc Hs. apply list_elem_of_filter in Hs as [Hs _]. by apply Hs.
  - intros s Hs. by apply list_elem_of_filter in Hs as [_ Hs].
Qed.

(** Three entries, the middle one held outside the pool. *)
Lemma garbageCollect_removes_sole_held_witness :
  exists h' p',
    garbageCollect 5 (<[3%nat := 2%nat]> (unheldHeap 4)) (mkStringPool (unheldTable 4) 0)
      = Some (h', p')
    /\ strings p' = filter (fun s => ~ soleHolder (<[3%nat := 2%nat]> (unheldHeap 4)) s)
                           (unheldTable 4)
    /\ (forall s, s ∈ unheldTable 4 ->
          (2 <= getReferenceCount (<[3%nat := 2%nat]> (unheldHeap 4)) s)%nat ->
          s ∈ strings p')
    /\ (forall s, s ∈ unheldTable 4 ->
          getReferenceCount (<[3%nat := 2%nat]> (unheldHeap 4)) s = 1%nat ->
          s ∉ strings p')
    /\ (forall s, s ∈ strings p' -> s ∈ unheldTable 4)
    /\ h' = foldr release (<[3%nat := 2%nat]> (unheldHeap 4))
              (filter (soleHolder (<[3%nat := 2%nat]> (unheldHeap 4))) (unheldTable 4))
    /\ lastGarbageCollectionTime p' = 5.
Proof.
  apply (garbageCollect_removes_sole_held 5 (<[3%nat := 2%nat]> (unheldHeap 4))
           (mkStringPool (unheldTable 4) 0)).
  simpl. refine (bool_decide_unpack _ _). vm_compute. exact I.
Defined.

(** ** The guarded collection *)

(** C4, as stated, fails at its boundary: with exactly 301 entries and
    exactly 30000 ms since the last collection the check collects nothing,
    where a collection pass would have emptied the table. *)
Lemma no_collection_at_exact_interval :
  ~ (forall (now : Z) (h : Heap) (p : StringPool),
       length (strings p) = 301%nat ->
       now - lastGarbageCollectionTime p = garbageCollectionInterval ->
       garbageCollectIfNeeded now h p = garbageCollect now h p).
Proof.
  intros Hclaim.
  specialize (Hclaim 30000 (unheldHeap 301) (mkStringPool (unheldTable 301) 0)
                eq_refl eq_refl).
  vm_compute in Hclaim. discriminate Hclaim.
Qed.

(** C4, as amended.  The check before an intern runs a collection pass if and
    only if the table holds more than 300 entries and the counter is strictly
    above the 32-bit sum of the last collection time and 30000; otherwise it
    changes nothing.  Without wrap-around that is: more than 30000 ms have
    elapsed; with exactly 301 entries the pass runs at 30001 ms and does not
    run at 30000 ms. *)
Theorem garbageCollectIfNeeded_runs_iff (now : Z) (h : Heap) (p : StringPool) :
  (garbageCollectNeeded now p = true <->
     (300 < length (strings p))%nat
     /\ uint32 (lastGarbageCollectionTime p + 30000) < now)
  /\ (garbageCollectNeeded now p = true ->
      garbageCollectIfNeeded now h p = garbageCollect now h p)
  /\ (garbageCollectNeeded now p = false ->
      garbageCollectIfNeeded now h p = Some (h, p))
  /\ (0 <= lastGarbageCollectionTime p ->
      lastGarbageCollectionTime p + 30000 < 2 ^ 32 ->
      (garbageCollectNeeded now p = true <->
         (300 < length (strings p))%nat /\ 30000 < now - lastGarbageCollectionTime p)
      /\ (length (strings p) = 301%nat ->
          (now = lastGarbageCollectionTime p + 30001 -> garbageCollectNeeded now p = true)
          /\ (now = lastGarbageCollectionTime p + 30000 -> garbageCollectNeeded now p = false))).
Proof.
  assert (garbageCollectNeeded now p = true <->
     (300 < length (strings p))%nat
     /\ uint32 (lastGarbageCollectionTime p + 30000) < now) as Hguard.
  { unfold garbageCollectNeeded, minNumberOfStringsForGarbageCollection,
      garbageCollectionInterval.
    rewrite andb_true_iff, !Z.ltb_lt. split; intros [H1 H2]; split; lia. }
  split; [exact Hguard|].
  split; [by unfold garbageCollectIfNeeded; intros ->|].
  split; [by unfold garbageCollectIfNeeded; intros ->|].
  intros H0 Hsum.
  assert (uint32 (lastGarbageCollectionTime p + 30000) = lastGarbageCollectionTime p + 30000)
    as Hu by (unfold uint32; apply Z.mod_small; lia).
  rewrite Hu in Hguard. split; [rewrite Hguard; lia|].
  intros Hlen. split; intros ->.
  - apply Hguard. lia.
  - apply not_true_is_false. rewrite Hguard. lia.
Qed.

(** ** The empty input *)

(** C5.  A null or empty input of any of the four shapes takes the fast path:
    the call returns the canonical empty [String]; the table, the timestamp
    and the counts are what they were, so no collection check ran. *)
Theorem getPooledString_null_or_empty (i : Input) (now : Z) (h : Heap) (p : StringPool) :
  validInput i -> inputContent i = [] ->
  getPooledString i now h p = Some (emptyString, h, p).
Proof.
  intros Hv Hc. apply getPooledString_empty. by apply isEmptyInput_content.
Qed.

(** An empty range in the middle of a buffer. *)
Lemma getPooledString_null_or_empty_witness :
  getPooledString (CharRange [102; 111; 111]%N 1 1) 40000
    (unheldHeap 2) (mkStringPool (unheldTable 2) 0)
  = Some (emptyString, unheldHeap 2, mkStringPool (unheldTable 2) 0).
Proof.
  apply (getPooledString_null_or_empty (CharRange [102; 111; 111]%N 1 1) 40000
           (unheldHeap 2) (mkStringPool (unheldTable 2) 0)).
  - simpl. lia.
  - reflexivity.
Defined.

(** ** The comparators *)

Lemma storesContentFor (x : NewString) :
  match x with
  | OfString s => storesContent s (newStringContent x)
  | OfCharPointer s => storesContent s (newStringContent x)
  | OfStartEnd s => storesContent s (newStringContent x)
  end.
Proof.
  destruct x as [s|s|s]; simpl.
  - apply storesContent_String.
  - apply storesContent_CharPointer.
  - apply storesContent_StartEndString.
Qed.




(** ** The insertion index *)

Lemma search_loopFor_absent (a : list String) (x : NewString) :
  sortedTable a -> (forall e, e ∈ a -> text e <> newStringContent x) ->
  exists i, search_loopFor (S (length a)) a x 0 (length a) = Some (InsertAt i)
    /\ (i <= length a)%nat
    /\ below (newStringContent x) (take i a) /\ above (newStringContent x) (drop i a).
Proof.
  intros Hs Hno. pose proof (storesContentFor x) as Hx.
  destruct x as [s|s|s]; simpl in *;
    by apply (search_loop_absent _ _ _ (proj1 Hx)).
Qed.

(** On a strictly sorted table without the content of the input the loop on
    natural numbers ends with the index of the first entry above the input;
    inserting there keeps the table strictly sorted, and no other index
    does. *)
Lemma search_loopFor_insertion_index (a : list String) (x : NewString) :
  sortedTable a -> (forall e, e ∈ a -> text e <> newStringContent x) ->
  exists i, search_loopFor (S (length a)) a x 0 (length a) = Some (InsertAt i)
    /\ (i <= length a)%nat
    /\ (forall j s, a !! j = Some s ->
          ((j < i)%nat -> lex_lt (text s) (newStringContent x))
          /\ ((i <= j)%nat -> lex_lt (newStringContent x) (text s)))
    /\ (forall s, text s = newStringContent x -> sortedTable (Array_insert i s a))
    /\ (forall j s, (j <= length a)%nat -> text s = newStringContent x ->
          sortedTable (Array_insert j s a) -> j = i).
Proof.
  intros Hs Hno.
  destruct (search_loopFor_absent a x Hs Hno) as (i & Hr & Hi & Hlo & Hhi).
  unfold below, above in *. rewrite Forall_forall in Hlo, Hhi.
  assert (forall j s, a !! j = Some s ->
           ((j < i)%nat -> lex_lt (text s) (newStringContent x))
           /\ ((i <= j)%nat -> lex_lt (newStringContent x) (text s))) as Hsep.
  { intros j s Hj. split; intros Hji.
    - apply Hlo, list_elem_of_lookup. exists j. by rewrite lookup_take_lt.
    - apply Hhi, list_elem_of_lookup. exists (j - i)%nat. rewrite lookup_drop.
      by replace (i + (j - i))%nat with j by lia. }
  exists i. split_and!; auto.
  + intros s Hts. rewrite Array_insert_take_drop by done.
    apply sortedTable_insert; [done|unfold below|unfold above];
      rewrite Forall_forall, Hts; auto.
  + intros j s Hj Hts Hsj. rewrite Array_insert_take_drop in Hsj by done.
    unfold sortedTable in Hsj.
    destruct (Nat.lt_total j i) as [Hlt|[->|Hlt]]; [exfalso|done|exfalso].
    * destruct (lookup_lt_is_Some_2 a j) as [sj Hsj']; [lia|].
      apply StronglySorted_app in Hsj as (_ & _ & Hsj).
      apply StronglySorted_inv in Hsj as [_ Hall]. rewrite Forall_forall in Hall.
      assert (String_lt s sj) as Hc.
      { apply Hall, list_elem_of_lookup. exists 0%nat. rewrite lookup_drop.
        by rewrite Nat.add_0_r. }
      apply String_lt_lex in Hc. rewrite Hts in Hc.
      destruct (Hsep j sj Hsj') as [Hb _].
      eapply lex_lt_irrefl, lex_lt_trans; [exact Hc|]. apply Hb. lia.
    * destruct (lookup_lt_is_Some_2 a i) as [si Hsi]; [lia|].
      apply StronglySorted_app in Hsj as (Hx & _ & _).
      assert (String_lt si s) as Hc.
      { apply Hx; [|apply elem_of_cons; auto].
        apply list_elem_of_lookup. exists i. by rewrite lookup_take_lt. }
      apply String_lt_lex in Hc. rewrite Hts in Hc.
      destruct (Hsep i si Hsi) as [_ Ha].
      eapply lex_lt_irrefl, lex_lt_trans; [exact Hc|]. apply Ha. lia.
Qed.

(** ** The loop on [int] indices *)

Lemma int32_exact (x : Z) : - 2 ^ 31 <= x < 2 ^ 31 -> int32 x = x.
Proof. intros Hx. unfold int32. rewrite Z.mod_small; lia. Qed.

Lemma int32_wrapped (x : Z) : 2 ^ 31 <= x < 2 ^ 32 -> int32 x = x - 2 ^ 32.
Proof.
  intros Hx. unfold int32.
  replace ((x + 2 ^ 31) mod 2 ^ 32) with (x + 2 ^ 31 - 2 ^ 32);
    [lia|apply (Z.mod_unique _ _ 1); lia].
Qed.

Lemma Array_getReference_nat (a : list String) (i : nat) :
  Array_getReference a (Z.of_nat i) = a !! i.
Proof.
  unfold Array_getReference. destruct (Z.ltb_spec (Z.of_nat i) 0); [lia|].
  by rewrite Nat2Z.id.
Qed.

Lemma Array_getReference_negative (a : list String) (i : Z) :
  i < 0 -> Array_getReference a i = None.
Proof. intros Hi. unfold Array_getReference. by destruct (Z.ltb_spec i 0); [|lia]. Qed.

Lemma halfway_nat (start end_ : nat) :
  Z.quot (Z.of_nat start + Z.of_nat end_) 2 = Z.of_nat ((start + end_) / 2).
Proof.
  rewrite Z.quot_div_nonneg by lia.
  rewrite <- Nat2Z.inj_add. by rewrite (Nat2Z.inj_div _ 2).
Qed.

Section IntLoop.
Context {T : Type} `{NewStringType T}.
Variable x : T.
Variable a : list String.
Hypothesis Hsize : Z.of_nat (length a) <= 2 ^ 30.

Lemma loop_body_int_exact (start end_ : nat) :
  (start < end_ <= length a)%nat ->
  loop_body_int a x (Z.of_nat start) (Z.of_nat end_) = intStep (loop_body a x start end_).
Proof.
  intros Hb. unfold loop_body_int, loop_body.
  rewrite Array_getReference_nat.
  destruct (a !! start) as [s|]; [|done]. cbv zeta.
  destruct (compareStrings x s =? 0); [done|].
  rewrite int32_exact by lia. rewrite halfway_nat.
  destruct (Nat.eqb_spec ((start + end_) / 2) start) as [E|E].
  - rewrite E, Z.eqb_refl.
    destruct (0 <? compareStrings x s); [|done].
    rewrite int32_exact by lia. cbn [intStep]. f_equal. lia.
  - destruct (Z.eqb_spec (Z.of_nat ((start + end_) / 2)) (Z.of_nat start)) as [E'|E']; [lia|].
    rewrite Array_getReference_nat.
    destruct (a !! ((start + end_) / 2)%nat) as [s'|]; [|done].
    destruct (compareStrings x s' =? 0); [done|].
    by destruct (0 <? compareStrings x s').
Qed.

Lemma search_loop_int_exact (fuel : nat) : forall start end_ : nat,
  (end_ <= length a)%nat ->
  search_loop_int fuel a x (Z.of_nat start) (Z.of_nat end_)
  = intExit <$> search_loop fuel a x start end_.
Proof.
  induction fuel as [|fuel IH]; intros start end_ Hle.
  - simpl. destruct (Nat.ltb_spec start end_), (Z.ltb_spec (Z.of_nat start) (Z.of_nat end_));
      try lia; done.
  - cbn [search_loop_int search_loop].
    destruct (Nat.ltb_spec start end_) as [Hlt|Hge],
      (Z.ltb_spec (Z.of_nat start) (Z.of_nat end_)); try lia; [|done].
    rewrite loop_body_int_exact by lia.
    pose proof (loop_body_step x a start end_ (conj Hlt Hle)) as Hstep.
    destruct (loop_body a x start end_) as [s|i|s' e'|]; simpl; try done.
    apply IH. destruct Hstep as [Hh [[-> ->]|[-> ->]]]; lia.
Qed.
End IntLoop.

(** Above every entry of a table of more than [2^30] entries. *)
Section Overflow.
Context {T : Type} `{NewStringType T}.
Variable x : T.
Variable a : list String.
Hypothesis Hsize : 2 ^ 30 + 1 <= Z.of_nat (length a) <= 2 ^ 31 - 1.
Hypothesis Habove : forall s, s ∈ a -> 0 < compareStrings x s.

Lemma loop_body_int_above (start : Z) :
  0 <= start < Z.of_nat (length a) ->
  loop_body_int a x start (Z.of_nat (length a))
  = if start + Z.of_nat (length a) <? 2 ^ 31
    then IntContinue ((start + Z.of_nat (length a)) / 2) (Z.of_nat (length a))
    else IntOutOfRange.
Proof.
  intros Hb. unfold loop_body_int.
  assert (forall i, 0 <= i < Z.of_nat (length a) ->
            exists s, Array_getReference a i = Some s /\ 0 < compareStrings x s) as Hget.
  { intros i Hi. rewrite <- (Z2Nat.id i) by lia. rewrite Array_getReference_nat.
    destruct (lookup_lt_is_Some_2 a (Z.to_nat i)) as [s Hs]; [lia|].
    exists s. split; [done|]. by eapply Habove, list_elem_of_lookup_2. }
  destruct (Hget start Hb) as (s & -> & Hs).
  destruct (Z.eqb_spec (compareStrings x s) 0) as [E|_]; [lia|].
  destruct (Z.ltb_spec (start + Z.of_nat (length a)) (2 ^ 31)) as [Hsum|Hsum].
  - rewrite int32_exact by lia. rewrite Z.quot_div_nonneg by lia.
    assert (start < (start + Z.of_nat (length a)) / 2 < Z.of_nat (length a)) as Hh.
    { pose proof (Z.div_mod (start + Z.of_nat (length a)) 2).
      pose proof (Z.mod_pos_bound (start + Z.of_nat (length a)) 2). lia. }
    destruct (Z.eqb_spec ((start + Z.of_nat (length a)) / 2) start) as [E|_]; [lia|].
    destruct (Hget ((start + Z.of_nat (length a)) / 2)) as (s' & -> & Hs'); [lia|].
    destruct (Z.eqb_spec (compareStrings x s') 0) as [E|_]; [lia|].
    by destruct (Z.ltb_spec 0 (compareStrings x s')); [|lia].
  - rewrite int32_wrapped by lia.
    assert (Z.quot (start + Z.of_nat (length a) - 2 ^ 32) 2 < 0) as Hneg.
    { pose proof (Z.quot_rem' (start + Z.of_nat (length a) - 2 ^ 32) 2).
      pose proof (Z.rem_bound_pos_neg (start + Z.of_nat (length a) - 2 ^ 32) 2
                    ltac:(lia) ltac:(lia)). lia. }
    destruct (Z.eqb_spec (Z.quot (start + Z.of_nat (length a) - 2 ^ 32) 2) start) as [E|_];
      [lia|].
    by rewrite Array_getReference_negative.
Qed.
End Overflow.

Section IntFuel.
Context {T : Type} `{NewStringType T}.
Variable x : T.
Variable a : list String.

(** More fuel does not change what the loop computes. *)
Lemma search_loop_int_fuel (f : nat) : forall (f' : nat) (start end_ : Z) (r : IntLoopExit),
  search_loop_int f a x start end_ = Some r -> (f <= f')%nat ->
  search_loop_int f' a x start end_ = Some r.
Proof.
  induction f as [|f IH]; intros f' start end_ r Hr Hf.
  - simpl in Hr. destruct f'; simpl; destruct (start <? end_); done.
  - destruct f' as [|f']; [lia|]. cbn [search_loop_int] in *.
    destruct (start <? end_); [|done].
    destruct (loop_body_int a x start end_); try done. apply IH; [done|lia].
Qed.

Hypothesis Hsize : 2 ^ 30 + 1 <= Z.of_nat (length a) <= 2 ^ 31 - 1.
Hypothesis Habove : forall s, s ∈ a -> 0 < compareStrings x s.

(** Above every entry of such a table the search moves [start] up until
    [start + end] leaves the [int] range, and reads out of the table then. *)
Lemma search_loop_int_faults (f : nat) : forall start : Z,
  0 <= start < Z.of_nat (length a) ->
  Z.of_nat (length a) - start <= 2 ^ Z.of_nat f ->
  search_loop_int (S f) a x start (Z.of_nat (length a)) = Some IntFault.
Proof.
  induction f as [|f IH]; intros start Hb Hf; cbn [search_loop_int];
    (destruct (Z.ltb_spec start (Z.of_nat (length a))); [|lia]);
    rewrite (loop_body_int_above x a Hsize Habove start Hb);
    destruct (Z.ltb_spec (start + Z.of_nat (length a)) (2 ^ 31)) as [Hsum|Hsum]; try done.
  - simpl in Hf. lia.
  - rewrite Nat2Z.inj_succ, Z.pow_succ_r in Hf by lia.
    pose proof (Z.div_mod (start + Z.of_nat (length a)) 2).
    pose proof (Z.mod_pos_bound (start + Z.of_nat (length a)) 2).
    apply IH; lia.
Qed.

Lemma search_loop_int_overflow (fuel : nat) :
  (32 <= fuel)%nat ->
  search_loop_int fuel a x 0 (Z.of_nat (length a)) = Some IntFault.
Proof.
  intros Hf. apply (search_loop_int_fuel 32); [|done].
  apply (search_loop_int_faults 31); [lia|]. change (Z.of_nat 31) with 31. lia.
Qed.
End IntFuel.

(** ** The table of [wideEntry] *)

Lemma wideTable_length (n : nat) : length (wideTable n) = n.
Proof. unfold wideTable. by rewrite length_fmap, length_seq. Qed.

Lemma wideTable_elem (n : nat) (s : String) :
  s ∈ wideTable n -> exists k, (k < n)%nat /\ s = wideEntry k.
Proof.
  unfold wideTable. intros (k & -> & Hk%elem_of_seq)%list_elem_of_fmap.
  exists k. split; [lia|done].
Qed.

Lemma wideEntry_lt (i j : nat) :
  (i < j)%nat -> lex_lt (text (wideEntry i)) (text (wideEntry j)).
Proof.
  intros Hij. unfold wideEntry. cbn [text].
  pose proof (Z.div_mod (Z.of_nat i) 2048).
  pose proof (Z.mod_pos_bound (Z.of_nat i) 2048).
  pose proof (Z.div_mod (Z.of_nat i / 2048) 2048).
  pose proof (Z.mod_pos_bound (Z.of_nat i / 2048) 2048).
  pose proof (Z.div_mod (Z.of_nat j) 2048).
  pose proof (Z.mod_pos_bound (Z.of_nat j) 2048).
  pose proof (Z.div_mod (Z.of_nat j / 2048) 2048).
  pose proof (Z.mod_pos_bound (Z.of_nat j / 2048) 2048).
  pose proof (Z.div_div (Z.of_nat i) 2048 2048) as Ei.
  pose proof (Z.div_div (Z.of_nat j) 2048 2048) as Ej.
  change (2048 * 2048) with 4194304 in *.
  rewrite <- Ei, <- Ej by lia.
  assert (0 <= Z.of_nat i / 2048 / 2048) by (apply Z.div_pos; [apply Z.div_pos|]; lia).
  assert (0 <= Z.of_nat j / 2048 / 2048) by (apply Z.div_pos; [apply Z.div_pos|]; lia).
  destruct (Z.lt_total (Z.of_nat i / 2048 / 2048) (Z.of_nat j / 2048 / 2048))
    as [Hlt|[Heq|Hgt]]; [|rewrite Heq|lia].
  { apply lex_lt_head. lia. }
  apply lex_lt_tail.
  destruct (Z.lt_total ((Z.of_nat i / 2048) mod 2048) ((Z.of_nat j / 2048) mod 2048))
    as [Hlt|[Heq'|Hgt]]; [|rewrite Heq'|lia].
  { apply lex_lt_head. lia. }
  apply lex_lt_tail, lex_lt_head. lia.
Qed.

Lemma wideTable_sorted (n : nat) : sortedTable (wideTable n).
Proof.
  unfold sortedTable, wideTable. generalize 0%nat as k.
  induction n as [|n IH]; intros k; simpl; constructor; [apply IH|].
  apply Forall_forall. intros s (j & -> & Hj%elem_of_seq)%list_elem_of_fmap.
  apply String_lt_lex, wideEntry_lt. lia.
Qed.

Lemma wideEntry_below (k : nat) :
  Z.of_nat k <= 2 ^ 30 -> lex_lt (text (wideEntry k)) (newStringContent aboveWide).
Proof.
  intros Hk. unfold wideEntry. simpl. apply lex_lt_head.
  assert (0 <= Z.of_nat k / 4194304 <= 256).
  { split; [apply Z.div_pos; lia|].
    apply Z.lt_succ_r, Z.div_lt_upper_bound; lia. }
  change 3000%positive with (Z.to_pos 3000). lia.
Qed.

Lemma overflowSize_value : Z.of_nat overflowSize = 2 ^ 30 + 1.
Proof. unfold overflowSize. rewrite Z2Nat.id; lia. Qed.

Lemma aboveWide_above (n : nat) (s : String) :
  Z.of_nat n <= 2 ^ 30 + 1 -> s ∈ wideTable n ->
  0 < compareStrings_CharPointer [3000%N] s.
Proof.
  intros Hn (k & Hk & ->)%wideTable_elem.
  change (0 < compareStringsFor aboveWide (wideEntry k)).
  rewrite compareStringsFor_content. apply String_compare_gt, wideEntry_below. lia.
Qed.

(** The search above the table of [2^30 + 1] entries: it reads out of range,
    in the iteration on [[2^30 - 1, 2^30 + 1)], whose sum is [2^31]. *)
Lemma wideTable_overflow_step (n : nat) :
  Z.of_nat n = 2 ^ 30 + 1 ->
  loop_body_intFor (wideTable n) aboveWide (2 ^ 30 - 1) (2 ^ 30 + 1) = IntOutOfRange.
Proof.
  intros Hn. unfold aboveWide, loop_body_intFor.
  replace (2 ^ 30 + 1) with (Z.of_nat (length (wideTable n)))
    by (rewrite wideTable_length; lia).
  rewrite loop_body_int_above.
  - rewrite wideTable_length, Hn.
    by destruct (Z.ltb_spec (2 ^ 30 - 1 + (2 ^ 30 + 1)) (2 ^ 31)); [lia|].
  - rewrite wideTable_length. lia.
  - intros s. apply aboveWide_above. lia.
  - rewrite wideTable_length. lia.
Qed.

Lemma wideTable_overflow (n : nat) (fuel : nat) :
  Z.of_nat n = 2 ^ 30 + 1 -> (32 <= fuel)%nat ->
  search_loop_intFor fuel (wideTable n) aboveWide 0 (2 ^ 30 + 1) = Some IntFault.
Proof.
  intros Hn Hf. unfold aboveWide, search_loop_intFor.
  replace (2 ^ 30 + 1) with (Z.of_nat (length (wideTable n)))
    by (rewrite wideTable_length; lia).
  apply search_loop_int_overflow; [rewrite wideTable_length; lia| |done].
  intros s. apply aboveWide_above. lia.
Qed.

Lemma wideTable_never_returns (n : nat) (fuel : nat) (r : IntLoopExit) :
  Z.of_nat n = 2 ^ 30 + 1 ->
  search_loop_intFor fuel (wideTable n) aboveWide 0 (2 ^ 30 + 1) = Some r -> r = IntFault.
Proof.
  intros Hn Hr.
  pose proof (wideTable_overflow n (fuel + 32) Hn ltac:(lia)) as Hf.
  unfold aboveWide, search_loop_intFor in *.
  rewrite (search_loop_int_fuel _ _ fuel (fuel + 32) _ _ r Hr) in Hf by lia.
  by injection Hf.
Qed.

Lemma search_loop_intFor_exact (fuel : nat) (a : list String) (x : NewString) (start end_ : nat) :
  Z.of_nat (length a) <= 2 ^ 30 -> (end_ <= length a)%nat ->
  search_loop_intFor fuel a x (Z.of_nat start) (Z.of_nat end_)
  = intExit <$> search_loopFor fuel a x start end_.
Proof.
  intros Hsize Hle. destruct x as [s|s|s]; simpl; by apply search_loop_int_exact.
Qed.

Lemma loop_body_intFor_exact (a : list String) (x : NewString) (start end_ : nat) :
  Z.of_nat (length a) <= 2 ^ 30 -> (start < end_ <= length a)%nat ->
  loop_body_intFor a x (Z.of_nat start) (Z.of_nat end_) = intStep (loop_bodyFor a x start end_).
Proof.
  intros Hsize Hb. destruct x as [s|s|s]; simpl; by apply loop_body_int_exact.
Qed.

Lemma loop_bodyFor_step (a : list String) (x : NewString) (start end_ : nat) :
  (start < end_ <= length a)%nat ->
  match loop_bodyFor a x start end_ with
  | Return s => s ∈ a
  | Break i => (end_ = S start) /\ (i = start \/ i = S start)
  | Continue start' end' =>
      (start < (start + end_) / 2 < end_)%nat
      /\ ((start' = ((start + end_) / 2)%nat /\ end' = end_)
          \/ (start' = start /\ end' = ((start + end_) / 2)%nat))
  | OutOfRange => False
  end.
Proof. intros Hb. destruct x as [s|s|s]; simpl; by apply loop_body_step. Qed.

(** X17.  On a table of [2^30] entries at most the loop on the [int] indices
    of the source is the loop on natural numbers: for every argument, every
    fuel and all bounds within the table, each iteration does the same and
    the loop ends the same way, with the same entry or the same index, and
    without a read outside the table. *)
Theorem search_loop_int_agrees
    (fuel : nat) (a : list String) (x : NewString) (start end_ : nat) :
  Z.of_nat (length a) <= 2 ^ 30 -> (end_ <= length a)%nat ->
  search_loop_intFor fuel a x (Z.of_nat start) (Z.of_nat end_)
    = intExit <$> search_loopFor fuel a x start end_
  /\ search_loop_intFor fuel a x (Z.of_nat start) (Z.of_nat end_) <> Some IntFault
  /\ ((start < end_)%nat ->
      loop_body_intFor a x (Z.of_nat start) (Z.of_nat end_)
        = intStep (loop_bodyFor a x start end_)
      /\ loop_body_intFor a x (Z.of_nat start) (Z.of_nat end_) <> IntOutOfRange).
Proof.
  intros Hsize Hle. rewrite search_loop_intFor_exact by done. split_and!.
  - done.
  - by destruct (search_loopFor fuel a x start end_) as [[s|i]|].
  - intros Hlt. rewrite loop_body_intFor_exact by lia. split; [done|].
    pose proof (loop_bodyFor_step a x start end_ (conj Hlt Hle)) as Hstep.
    by destruct (loop_bodyFor a x start end_).
Qed.

(** A range in the middle of a table of five, the whole table searched. *)
Lemma search_loop_int_agrees_witness :
  search_loop_intFor 4 (unheldTable 5) (OfStartEnd (mkStartEndString [9; 4; 9]%N 1 2))
      (Z.of_nat 0) (Z.of_nat 5)
    = intExit <$> search_loopFor 4 (unheldTable 5)
                    (OfStartEnd (mkStartEndString [9; 4; 9]%N 1 2)) 0 5
  /\ search_loop_intFor 4 (unheldTable 5) (OfStartEnd (mkStartEndString [9; 4; 9]%N 1 2))
       (Z.of_nat 0) (Z.of_nat 5) <> Some IntFault
  /\ ((0 < 5)%nat ->
      loop_body_intFor (unheldTable 5) (OfStartEnd (mkStartEndString [9; 4; 9]%N 1 2))
          (Z.of_nat 0) (Z.of_nat 5)
        = intStep (loop_bodyFor (unheldTable 5)
                     (OfStartEnd (mkStartEndString [9; 4; 9]%N 1 2)) 0 5)
      /\ loop_body_intFor (unheldTable 5) (OfStartEnd (mkStartEndString [9; 4; 9]%N 1 2))
           (Z.of_nat 0) (Z.of_nat 5) <> IntOutOfRange).
Proof.
  apply (search_loop_int_agrees 4 (unheldTable 5)
           (OfStartEnd (mkStartEndString [9; 4; 9]%N 1 2)) 0 5).
  - vm_compute. discriminate.
  - simpl. lia.
Defined.

Lemma addPooledString_int_exact {T} `{NewStringType T} (x : T) (a : list String) (h : Heap) :
  Z.of_nat (length a) <= 2 ^ 30 -> addPooledString_int a x h = addPooledString a x h.
Proof.
  intros Hsize. unfold addPooledString_int, addPooledString.
  rewrite (search_loop_int_exact x a Hsize _ 0 (length a)) by lia.
  destruct (search_loop (S (length a)) a x 0 (length a)) as [[s|i]|]; simpl; try done.
  destruct (toString x h) as [s h1]. unfold Array_insert_int.
  destruct (Z.ltb_spec (Z.of_nat i) 0); [lia|].
  by rewrite Nat2Z.id, Array_getReference_nat.
Qed.

Lemma addPooledString_int_overflow (n : nat) (h : Heap) :
  Z.of_nat n = 2 ^ 30 + 1 -> addPooledString_intFor (wideTable n) aboveWide h = None.
Proof.
  intros Hn.
  assert (search_loop_intFor (S n) (wideTable n) aboveWide 0 (Z.of_nat n) = Some IntFault)
    as Hf by (rewrite Hn; apply wideTable_overflow; lia).
  unfold aboveWide, search_loop_intFor in Hf.
  unfold aboveWide, addPooledString_intFor, addPooledString_int.
  rewrite wideTable_length. by rewrite Hf.
Qed.

(** X18.  On a table of [2^30] entries at most, [addPooledString] on the
    [int] indices of the source is [addPooledString] on natural numbers, for
    each of the three argument types: the same [String] returned, the same
    table and the same counts afterwards.  On the table of the [2^30 + 1]
    strings [wideEntry] the search for an input above all of them reads
    outside the table, and [addPooledString] on [int]s has no result. *)
Theorem addPooledString_int_agrees (a : list String) (x : NewString) (h : Heap) :
  Z.of_nat (length a) <= 2 ^ 30 ->
  addPooledString_intFor a x h = addPooledStringFor a x h
  /\ addPooledString_intFor (wideTable overflowSize) aboveWide h = None.
Proof.
  intros Hsize. split.
  - destruct x as [s|s|s]; simpl; by apply addPooledString_int_exact.
  - apply addPooledString_int_overflow, overflowSize_value.
Qed.

(** "bar" into the table that holds "foo". *)
Lemma addPooledString_int_agrees_witness :
  addPooledString_intFor [mkString 1 [102; 111; 111]%positive]
      (OfCharPointer [98; 97; 114]%N) (<[1%nat := 1%nat]> ∅)
    = addPooledStringFor [mkString 1 [102; 111; 111]%positive]
        (OfCharPointer [98; 97; 114]%N) (<[1%nat := 1%nat]> ∅)
  /\ addPooledString_intFor (wideTable overflowSize) aboveWide (<[1%nat := 1%nat]> ∅) = None.
Proof.
  apply (addPooledString_int_agrees [mkString 1 [102; 111; 111]%positive]
           (OfCharPointer [98; 97; 114]%N) (<[1%nat := 1%nat]> ∅)).
  vm_compute. discriminate.
Defined.

(** C7.  On a strictly sorted table of [2^30] entries at most, without the
    content of the input, the loop of [addPooledString], on the [int] indices
    of the source, ends with the index of the first entry above the input: the
    entries before it are below the input, the entries from it on are above;
    inserting there keeps the table strictly sorted, and no other index does.
    The example holds: "foo" into the empty pool, then "bar", then "foo"
    again.  On larger tables the loop does not compute that index:
    [start + end] leaves the range of [int].  On the sorted table of the
    [2^30 + 1] strings [wideEntry], for an input above all of them, which
    belongs at the end, the loop reads outside the table and returns no
    index. *)
Theorem search_loop_int_insertion_index :
  (forall (a : list String) (x : NewString),
     Z.of_nat (length a) <= 2 ^ 30 ->
     sortedTable a -> (forall e, e ∈ a -> text e <> newStringContent x) ->
     exists i : nat,
       search_loop_intFor (S (length a)) a x 0 (Z.of_nat (length a))
         = Some (IntInsertAt (Z.of_nat i))
       /\ (i <= length a)%nat
       /\ (forall j s, a !! j = Some s ->
             ((j < i)%nat -> lex_lt (text s) (newStringContent x))
             /\ ((i <= j)%nat -> lex_lt (newStringContent x) (text s)))
       /\ (forall s, text s = newStringContent x -> sortedTable (Array_insert i s a))
       /\ (forall j s, (j <= length a)%nat -> text s = newStringContent x ->
             sortedTable (Array_insert j s a) -> j = i))
  /\ (forall now1 now2 now3 : Z,
        let foo := mkString 1 [102; 111; 111]%positive in
        let bar := mkString 2 [98; 97; 114]%positive in
        exists h1 h2 h3,
          getPooledString (RawBuffer (Some [102; 111; 111]%N)) now1 ∅ newStringPool
            = Some (foo, h1, mkStringPool [foo] 0)
          /\ getPooledString (RawBuffer (Some [98; 97; 114]%N)) now2 h1 (mkStringPool [foo] 0)
            = Some (bar, h2, mkStringPool [bar; foo] 0)
          /\ getPooledString (RawBuffer (Some [102; 111; 111]%N)) now3 h2
               (mkStringPool [bar; foo] 0)
            = Some (foo, h3, mkStringPool [bar; foo] 0)
          /\ search_loop_intFor 1 [] (OfCharPointer [102; 111; 111]%N) 0 0
            = Some (IntInsertAt 0)
          /\ search_loop_intFor 2 [foo] (OfCharPointer [98; 97; 114]%N) 0 1
            = Some (IntInsertAt 0)
          /\ search_loop_intFor 3 [bar; foo] (OfCharPointer [102; 111; 111]%N) 0 2
            = Some (IntFound foo))
  /\ (sortedTable (wideTable overflowSize)
      /\ Z.of_nat (length (wideTable overflowSize)) = 2 ^ 30 + 1
      /\ (forall e, e ∈ wideTable overflowSize ->
            lex_lt (text e) (newStringContent aboveWide))
      /\ (forall fuel, (32 <= fuel)%nat ->
            search_loop_intFor fuel (wideTable overflowSize) aboveWide 0 (2 ^ 30 + 1)
            = Some IntFault)
      /\ (forall fuel i,
            search_loop_intFor fuel (wideTable overflowSize) aboveWide 0 (2 ^ 30 + 1)
            <> Some (IntInsertAt i))).
Proof.
  split_and!.
  - intros a x Hsize Hs Hno.
    destruct (search_loopFor_insertion_index a x Hs Hno) as (i & Hr & Hrest).
    exists i. split; [|exact Hrest].
    rewrite (search_loop_intFor_exact _ a x 0 (length a)) by (done || lia).
    by rewrite Hr.
  - intros now1 now2 now3 foo bar. eexists _, _, _. split_and!; reflexivity.
  - apply wideTable_sorted.
  - by rewrite wideTable_length, overflowSize_value.
  - intros e (k & Hk & ->)%wideTable_elem. apply wideEntry_below.
    pose proof overflowSize_value. lia.
  - intros fuel Hf. apply wideTable_overflow; [apply overflowSize_value|done].
  - intros fuel i Hr. by apply wideTable_never_returns in Hr; [|apply overflowSize_value].
Qed.

(** ** Termination of the search *)

Lemma search_loopFor_terminates (a : list String) (x : NewString) :
  exists r, search_loopFor (S (Nat.log2_up (length a))) a x 0 (length a) = Some r
    /\ forall fuel, (S (Nat.log2_up (length a)) <= fuel)%nat ->
         search_loopFor fuel a x 0 (length a) = Some r.
Proof.
  assert (length a <= 2 ^ Nat.log2_up (length a))%nat as Hlog.
  { destruct (length a) as [|n] eqn:E; [simpl; lia|].
    apply Nat.log2_log2_up_spec. lia. }
  assert (forall (T : Type) (HT : NewStringType T) (y : T),
    exists r, search_loop (S (Nat.log2_up (length a))) a y 0 (length a) = Some r
      /\ forall fuel, (S (Nat.log2_up (length a)) <= fuel)%nat ->
           search_loop fuel a y 0 (length a) = Some r) as Hgen.
  { intros T HT y.
    destruct (search_loop_terminates y a (Nat.log2_up (length a)) 0 (length a))
      as [r Hr]; [lia|lia|].
    exists r. split; [done|]. intros fuel Hf.
    by apply (search_loop_fuel y a _ _ _ _ _ Hr). }
  destruct x as [s|s|s]; simpl; apply Hgen.
Qed.

(** C9.  On a table of [2^30] entries at most, sorted or not, the loop of
    [addPooledString], on the [int] indices of the source, ends for every
    argument: an iteration on bounds within the table reads no index out of
    range, and when it goes on the range is cut at [halfway], strictly inside
    it, so the new range is one of the two halves, strictly shorter; the loop
    ends within [log2_up n + 1] iterations on a table of [n] entries, and more
    fuel changes nothing.  On larger tables the loop does not end that way:
    on the table of the [2^30 + 1] strings [wideEntry], for an input above all
    of them, the iteration on the range from [2^30 - 1] to [2^30 + 1] computes
    the [halfway] [- 2^30], not between its bounds, and reads outside the
    table. *)
Theorem search_loop_int_ends_logarithmic :
  (forall (a : list String) (x : NewString),
     Z.of_nat (length a) <= 2 ^ 30 ->
     (forall start end_ : Z, 0 <= start < end_ -> end_ <= Z.of_nat (length a) ->
        let halfway := Z.quot (int32 (start + end_)) 2 in
        match loop_body_intFor a x start end_ with
        | IntContinue start' end' =>
            start < halfway < end_
            /\ ((start' = halfway /\ end' = end_) \/ (start' = start /\ end' = halfway))
            /\ end' - start' < end_ - start
        | IntOutOfRange => False
        | IntReturn _ | IntBreak _ => True
        end)
     /\ (exists r,
           search_loop_intFor (S (Nat.log2_up (length a))) a x 0 (Z.of_nat (length a)) = Some r
           /\ r <> IntFault
           /\ forall fuel, (S (Nat.log2_up (length a)) <= fuel)%nat ->
                search_loop_intFor fuel a x 0 (Z.of_nat (length a)) = Some r))
  /\ (Z.of_nat (length (wideTable overflowSize)) = 2 ^ 30 + 1
      /\ loop_body_intFor (wideTable overflowSize) aboveWide (2 ^ 30 - 1) (2 ^ 30 + 1)
         = IntOutOfRange
      /\ Z.quot (int32 (2 ^ 30 - 1 + (2 ^ 30 + 1))) 2 = - 2 ^ 30
      /\ (forall fuel, (32 <= fuel)%nat ->
            search_loop_intFor fuel (wideTable overflowSize) aboveWide 0 (2 ^ 30 + 1)
            = Some IntFault)
      /\ (forall fuel r,
            search_loop_intFor fuel (wideTable overflowSize) aboveWide 0 (2 ^ 30 + 1) = Some r ->
            r = IntFault)).
Proof.
  split.
  - intros a x Hsize. split.
    + intros start end_ Hb Hle halfway. subst halfway.
      rewrite <- (Z2Nat.id start), <- (Z2Nat.id end_) by lia.
      rewrite loop_body_intFor_exact by lia.
      pose proof (loop_bodyFor_step a x (Z.to_nat start) (Z.to_nat end_)) as Hstep.
      destruct (loop_bodyFor a x (Z.to_nat start) (Z.to_nat end_)) as [s|i|s' e'|];
        simpl; try done; [|apply Hstep; lia].
      rewrite int32_exact by lia. rewrite halfway_nat.
      destruct Hstep as [Hh Hcase]; [lia|].
      split; [lia|]. split; [|destruct Hcase as [[-> ->]|[-> ->]]; lia].
      destruct Hcase as [[-> ->]|[-> ->]]; auto.
    + destruct (search_loopFor_terminates a x) as (r & Hr & Hfuel).
      exists (intExit r). split_and!.
      * rewrite (search_loop_intFor_exact _ a x 0 (length a)) by (done || lia).
        by rewrite Hr.
      * by destruct r.
      * intros fuel Hf.
        rewrite (search_loop_intFor_exact _ a x 0 (length a)) by (done || lia).
        by rewrite Hfuel.
  - pose proof overflowSize_value as Hn. split_and!.
    + by rewrite wideTable_length.
    + by apply wideTable_overflow_step.
    + reflexivity.
    + intros fuel Hf. by apply wideTable_overflow.
    + intros fuel r. by apply wideTable_never_returns.
Qed.

(** ** The interval guard *)

(** After the scan no entry of the table is solely held by the pool: the
    entries the scan passed over had another count, and releasing the removed
    ones leaves no count of [1] behind. *)
Lemma garbageCollect_loop_leaves_none (i : nat) : forall (h h' : Heap) (a a' : list String),
  garbageCollect_loop i h a = Some (h', a') ->
  Forall (fun s => ~ soleHolder h s) (drop i a) ->
  Forall (fun s => ~ soleHolder h' s) a'.
Proof.
  induction i as [|i IH]; intros h h' a a' Hr Hdone; simpl in Hr.
  - injection Hr as <- <-. by rewrite drop_0 in Hdone.
  - destruct (a !! i) as [s|] eqn:Hs; [|done].
    destruct (Nat.eqb_spec (getReferenceCount h s) 1) as [E|E].
    + apply (IH _ _ _ _ Hr).
      rewrite drop_delete_same by (apply lookup_lt_Some in Hs; lia).
      eapply Forall_impl; [exact Hdone|]. intros x Hx. simpl in *.
      unfold soleHolder in *.
      destruct (decide (holder x = holder s)) as [Heq|Hne].
      * exfalso. apply Hx. unfold getReferenceCount in *. by rewrite Heq.
      * by rewrite getReferenceCount_release_ne.
    + apply (IH _ _ _ _ Hr). rewrite (drop_S _ _ _ Hs). by constructor.
Qed.

(** What a pass does, whenever it runs. *)
Lemma garbageCollect_runs (now : Z) (h : Heap) (p : StringPool) :
  exists h' p', garbageCollect now h p = Some (h', p')
    /\ lastGarbageCollectionTime p' = now
    /\ sublist (strings p') (strings p)
    /\ Forall (fun s => ~ soleHolder h' s) (strings p').
Proof.
  unfold garbageCollect.
  destruct (garbageCollect_loop_sublist (length (strings p)) h (strings p))
    as (h' & a' & Hr & Hsub); [lia|].
  rewrite Hr. exists h', (mkStringPool a' now). simpl. split_and!; auto.
  apply (garbageCollect_loop_leaves_none _ _ _ _ _ Hr). rewrite drop_all. constructor.
Qed.

(** The 32-bit sum of the guard when it wraps, and the time elapsed between
    two readings of the counter less than one turn apart. *)
Lemma uint32_sum_wraps (last : Z) :
  0 <= last < 2 ^ 32 -> 2 ^ 32 <= last + garbageCollectionInterval ->
  uint32 (last + garbageCollectionInterval) = last + garbageCollectionInterval - 2 ^ 32.
Proof.
  unfold garbageCollectionInterval, uint32. intros Hl Hw.
  symmetry. apply (Z.mod_unique _ _ 1); lia.
Qed.



(** The guard of a table above the threshold. *)
Lemma garbageCollectNeeded_full (now : Z) (p : StringPool) :
  (300 < length (strings p))%nat ->
  garbageCollectNeeded now p
  = (uint32 (lastGarbageCollectionTime p + garbageCollectionInterval) <? now).
Proof.
  intros Hlen. unfold garbageCollectNeeded, minNumberOfStringsForGarbageCollection.
  by destruct (Z.ltb_spec 300 (Z.of_nat (length (strings p)))); [|lia].
Qed.




(** X2.  When the sum wraps, the guard of a table above the threshold is true
    at every counter value from the last collection time up to the counter's
    own wrap, that is before 30000 ms have elapsed, and the check collects:
    it runs the collection pass, which sets the timestamp to the counter value
    and leaves no entry that the pool alone holds. *)
Theorem interval_guard_early_when_sum_wraps (now : Z) (h : Heap) (p : StringPool) :
  2 ^ 32 - garbageCollectionInterval <= lastGarbageCollectionTime p < 2 ^ 32 ->
  (300 < length (strings p))%nat ->
  lastGarbageCollectionTime p <= now < 2 ^ 32 ->
  garbageCollectNeeded now p = true
  /\ now - lastGarbageCollectionTime p < garbageCollectionInterval
  /\ garbageCollectIfNeeded now h p = garbageCollect now h p
  /\ exists h' p', garbageCollectIfNeeded now h p = Some (h', p')
       /\ lastGarbageCollectionTime p' = now
       /\ sublist (strings p') (strings p)
       /\ Forall (fun s => ~ soleHolder h' s) (strings p').
Proof.
  unfold garbageCollectionInterval. intros Hlast Hlen Hnow.
  assert (garbageCollectNeeded now p = true) as Hg.
  { rewrite garbageCollectNeeded_full by done.
    rewrite uint32_sum_wraps by (unfold garbageCollectionInterval; lia).
    unfold garbageCollectionInterval. apply Z.ltb_lt. lia. }
  split; [done|]. split; [lia|].
  unfold garbageCollectIfNeeded. rewrite Hg. split; [done|].
  apply garbageCollect_runs.
Qed.

(** One millisecond after a collection at 10000 ms before the wrap. *)
Lemma interval_guard_early_when_sum_wraps_witness :
  garbageCollectNeeded (2 ^ 32 - 9999) (mkStringPool (unheldTable 301) (2 ^ 32 - 10000)) = true
  /\ 2 ^ 32 - 9999 - (2 ^ 32 - 10000) < garbageCollectionInterval
  /\ garbageCollectIfNeeded (2 ^ 32 - 9999) (unheldHeap 301)
       (mkStringPool (unheldTable 301) (2 ^ 32 - 10000))
     = garbageCollect (2 ^ 32 - 9999) (unheldHeap 301)
         (mkStringPool (unheldTable 301) (2 ^ 32 - 10000))
  /\ exists h' p',
       garbageCollectIfNeeded (2 ^ 32 - 9999) (unheldHeap 301)
         (mkStringPool (unheldTable 301) (2 ^ 32 - 10000)) = Some (h', p')
       /\ lastGarbageCollectionTime p' = 2 ^ 32 - 9999
       /\ sublist (strings p') (strings (mkStringPool (unheldTable 301) (2 ^ 32 - 10000)))
       /\ Forall (fun s => ~ soleHolder h' s) (strings p').
Proof.
  apply (interval_guard_early_when_sum_wraps (2 ^ 32 - 9999) (unheldHeap 301)
           (mkStringPool (unheldTable 301) (2 ^ 32 - 10000))).
  - simpl. unfold garbageCollectionInterval. lia.
  - vm_compute. lia.
  - simpl. lia.
Defined.

(** X3.  When the counter has wrapped and the sum has not, the guard is false at
    every counter value below the last collection time, although more than
    30000 ms, and less than one turn of the counter, have elapsed. *)
Theorem interval_guard_late_after_counter_wraps (now : Z) (h : Heap) (p : StringPool) :
  lastGarbageCollectionTime p + garbageCollectionInterval < 2 ^ 32 ->
  0 <= now < lastGarbageCollectionTime p ->
  garbageCollectNeeded now p = false
  /\ garbageCollectIfNeeded now h p = Some (h, p)
  /\ exists t1 : Z,
       uint32 t1 = now
       /\ garbageCollectionInterval < t1 - lastGarbageCollectionTime p < 2 ^ 32.
Proof.
  unfold garbageCollectionInterval. intros Hsum Hnow.
  assert (garbageCollectNeeded now p = false) as Hg.
  { unfold garbageCollectNeeded, garbageCollectionInterval, uint32.
    rewrite Z.mod_small by lia. apply andb_false_iff. right. apply Z.ltb_ge. lia. }
  split; [done|]. split; [unfold garbageCollectIfNeeded; by rewrite Hg|].
  exists (now + 2 ^ 32). split; [|lia].
  unfold uint32. rewrite <- (Z.mul_1_l (2 ^ 32)) at 1.
  rewrite Z.mod_add by lia. apply Z.mod_small. lia.
Qed.

(** A full table last collected 40000 ms before the wrap, read 1 ms after it. *)
Lemma interval_guard_late_after_counter_wraps_witness :
  garbageCollectNeeded 1 (mkStringPool (unheldTable 301) (2 ^ 32 - 40000)) = false
  /\ garbageCollectIfNeeded 1 (unheldHeap 301) (mkStringPool (unheldTable 301) (2 ^ 32 - 40000))
     = Some (unheldHeap 301, mkStringPool (unheldTable 301) (2 ^ 32 - 40000))
  /\ exists t1 : Z,
       uint32 t1 = 1
       /\ garbageCollectionInterval < t1 - (2 ^ 32 - 40000) < 2 ^ 32.
Proof.
  apply (interval_guard_late_after_counter_wraps 1 (unheldHeap 301)
           (mkStringPool (unheldTable 301) (2 ^ 32 - 40000))).
  - simpl. unfold garbageCollectionInterval. lia.
  - simpl. lia.
Defined.

(** ** Further properties of the comparator *)

(** X4.  The range comparator returns [-1], [0] or [1] and nothing else, for
    every range, well-formed or not, and every stored string. *)
Theorem compareStrings_range_three_valued (r : StartEndString) (s : String) :
  compareStrings_StartEndString r s = -1
  \/ compareStrings_StartEndString r s = 0
  \/ compareStrings_StartEndString r s = 1.
Proof.
  unfold compareStrings_StartEndString. rewrite compareStrings_loop_spec.
  apply String_compare_cases.
Qed.

(** X5.  A range whose end is not behind its start, or that starts at a
    terminator, is compared as the empty string: equal to a stored empty
    text and below every other one, whatever the buffer holds. *)
Theorem compareStrings_empty_range (r : StartEndString) (s : String) :
  (se_end r <= se_start r)%nat \/ CharPointer_isEmpty (se_buf r) (se_start r) = true ->
  compareStrings_StartEndString r s = if String_isEmpty s then 0 else -1.
Proof.
  intros Hr. unfold compareStrings_StartEndString. rewrite compareStrings_loop_spec.
  assert (contentOf (take (se_end r - se_start r) (drop (se_start r) (se_buf r))) = [])
    as ->.
  { destruct (decide (se_start r < se_end r)%nat) as [Hlt|Hge].
    - destruct Hr as [Hr|Hr]; [lia|]. rewrite slice_step by done.
      unfold CharPointer_isEmpty in Hr. rewrite nth_lookup_N in Hr.
      apply N.eqb_eq in Hr.
      destruct (se_buf r !! se_start r) as [[|c]|]; simpl in *; done.
    - by replace (se_end r - se_start r)%nat with 0%nat by lia. }
  unfold String_isEmpty. by destruct (text s).
Qed.

(** A range that ends before it starts, against a stored "ab". *)
Lemma compareStrings_empty_range_witness :
  compareStrings_StartEndString (mkStartEndString [97; 98; 99]%N 2 1)
    (mkString 9 [97; 98]%positive)
  = if String_isEmpty (mkString 9 [97; 98]%positive) then 0 else -1.
Proof.
  apply (compareStrings_empty_range (mkStartEndString [97; 98; 99]%N 2 1)
           (mkString 9 [97; 98]%positive)).
  left. simpl. lia.
Defined.

(** ** Further properties of the collection pass *)

(** X6.  Whatever the counts are, a collection pass returns: the backward
    scan reads no index out of range, and the table it leaves is a
    sub-sequence of the table before, no entry added, moved or changed, so a
    sorted table stays sorted; the timestamp is the clock value. *)
Theorem garbageCollect_subsequence (now : Z) (h : Heap) (p : StringPool) :
  exists h' p', garbageCollect now h p = Some (h', p')
    /\ sublist (strings p') (strings p)
    /\ (length (strings p') <= length (strings p))%nat
    /\ (sortedTable (strings p) -> sortedTable (strings p'))
    /\ lastGarbageCollectionTime p' = now.
Proof.
  destruct (garbageCollect_sublist now h p) as (h' & a' & -> & Hsub).
  exists h', (mkStringPool a' now). simpl. split_and!; auto.
  - by apply sublist_length.
  - by apply sortedTable_sublist.
Qed.

Lemma elem_of_delete_ne (a : list String) (i : nat) (s r : String) :
  a !! i = Some s -> r ∈ a -> r <> s -> r ∈ delete i a.
Proof.
  intros Hi Hr Hne. rewrite delete_take_drop.
  rewrite <- (take_drop i a), (drop_S _ _ _ Hi) in Hr.
  apply elem_of_app in Hr as [Hr|Hr]; apply elem_of_app; [by left|right].
  apply elem_of_cons in Hr as [->|Hr]; done.
Qed.

(** An entry with a holder outside the pool stays through the scan, its
    count untouched, whether or not other entries share storage. *)
Lemma garbageCollect_loop_keeps (r : String) (i : nat) : forall (h : Heap) (a : list String),
  (i <= length a)%nat -> r ∈ a -> (2 <= getReferenceCount h r)%nat ->
  exists h' a', garbageCollect_loop i h a = Some (h', a')
    /\ r ∈ a' /\ getReferenceCount h' r = getReferenceCount h r.
Proof.
  induction i as [|i IH]; intros h a Hi Hr Hc; simpl.
  - by exists h, a.
  - destruct (lookup_lt_is_Some_2 a i) as [s Hs]; [lia|]. rewrite Hs.
    destruct (Nat.eqb_spec (getReferenceCount h s) 1) as [E|E].
    + assert (holder r <> holder s) as Hne.
      { intros Heq. unfold getReferenceCount in *. rewrite Heq in Hc. lia. }
      destruct (IH (release s h) (delete i a)) as (h' & a' & -> & Hin & Hcount).
      * rewrite length_delete by eauto. lia.
      * apply (elem_of_delete_ne a i s r); [done|done|]. by intros ->.
      * by rewrite getReferenceCount_release_ne.
      * exists h', a'. split_and!; auto.
        by rewrite Hcount, getReferenceCount_release_ne.
    + apply IH; [lia|done|done].
Qed.

(** X7.  An entry with at least one holder outside the pool (count at least
    2) is never removed by a collection pass, on any table and for any counts
    of the other entries, and the pass leaves its count as it was. *)
Theorem held_entry_survives_collect (now : Z) (h : Heap) (p : StringPool) (r : String) :
  r ∈ strings p -> (2 <= getReferenceCount h r)%nat ->
  exists h' p', garbageCollect now h p = Some (h', p')
    /\ r ∈ strings p'
    /\ getReferenceCount h' r = getReferenceCount h r.
Proof.
  intros Hr Hc. unfold garbageCollect.
  destruct (garbageCollect_loop_keeps r (length (strings p)) h (strings p))
    as (h' & a' & -> & Hin & Hcount); [lia|done|done|].
  by exists h', (mkStringPool a' now).
Qed.

(** An entry with two holders outside the pool, between two unheld ones. *)
Lemma held_entry_survives_collect_witness :
  exists h' p',
    garbageCollect 7 (<[2%nat := 3%nat]> (unheldHeap 3))
      (mkStringPool (unheldTable 3) 0) = Some (h', p')
    /\ unheldEntry 2 ∈ strings p'
    /\ getReferenceCount h' (unheldEntry 2)
       = getReferenceCount (<[2%nat := 3%nat]> (unheldHeap 3)) (unheldEntry 2).
Proof.
  apply (held_entry_survives_collect 7 (<[2%nat := 3%nat]> (unheldHeap 3))
           (mkStringPool (unheldTable 3) 0) (unheldEntry 2)).
  - apply list_elem_of_lookup. exists 1%nat. reflexivity.
  - vm_compute. lia.
Defined.

Lemma garbageCollect_loop_nothing (i : nat) (h : Heap) (a : list String) :
  (i <= length a)%nat -> Forall (fun s => ~ soleHolder h s) a ->
  garbageCollect_loop i h a = Some (h, a).
Proof.
  intros Hi Hnone. induction i as [|i IH]; simpl; [done|].
  destruct (lookup_lt_is_Some_2 a i) as [s Hs]; [lia|]. rewrite Hs.
  rewrite Forall_forall in Hnone.
  pose proof (Hnone s (list_elem_of_lookup_2 _ _ _ Hs)) as Hc.
  destruct (Nat.eqb_spec (getReferenceCount h s) 1) as [E|E]; [done|]. apply IH. lia.
Qed.

(** X8.  Collecting is idempotent: a second pass right after a first one
    removes nothing and releases nothing, it only moves the timestamp; that
    holds for every table and all counts. *)
Theorem garbageCollect_twice (now now' : Z) (h : Heap) (p : StringPool) :
  exists h1 p1, garbageCollect now h p = Some (h1, p1)
    /\ garbageCollect now' h1 p1 = Some (h1, mkStringPool (strings p1) now').
Proof.
  unfold garbageCollect.
  destruct (garbageCollect_loop_sublist (length (strings p)) h (strings p))
    as (h1 & a1 & Hr & _); [lia|].
  rewrite Hr. exists h1, (mkStringPool a1 now). split; [done|]. simpl.
  rewrite garbageCollect_loop_nothing; [done|lia|].
  apply (garbageCollect_loop_leaves_none _ _ _ _ _ Hr).
  rewrite drop_all. constructor.
Qed.

(** ** Further properties of the interning calls *)

(** What a call past its guard runs: [lockedAdd] on an argument that stands
    for the content of the input. *)
Lemma getPooledString_cases (P : option (String * Heap * StringPool) -> Prop)
    (i : Input) (now : Z) (h : Heap) (p : StringPool) :
  isEmptyInput i = false ->
  (forall (T : Type) (HT : NewStringType T) (x : T),
     storesContent x (inputContent i) ->
     (inputContent i <> [] -> ownsStorage i -> keepsCounts x) ->
     P (lockedAdd x now h p)) ->
  P (getPooledString i now h p).
Proof.
  intros E HP.
  destruct i as [[s|]|buf start end_|s|s]; simpl in *;
    unfold getPooledString_cstr, getPooledString_range, getPooledString_StringRef,
      getPooledString_String; rewrite ?E; try done.
  - apply HP; [apply storesContent_CharPointer|]. intros Hc _.
    by apply keepsCounts_CharPointer.
  - apply HP; [apply storesContent_StartEndString|]. intros Hc _.
    by apply keepsCounts_StartEndString.
  - apply HP; [apply storesContent_CharPointer|]. intros Hc _.
    by apply keepsCounts_CharPointer.
  - apply HP; [apply storesContent_String|]. intros Hc Ho.
    apply keepsCounts_String. intros E0. by apply Ho in E0.
Qed.

Lemma garbageCollectIfNeeded_result (now : Z) (h : Heap) (p : StringPool) :
  exists h1 p1, garbageCollectIfNeeded now h p = Some (h1, p1)
    /\ sublist (strings p1) (strings p)
    /\ (lastGarbageCollectionTime p1 = lastGarbageCollectionTime p
        \/ lastGarbageCollectionTime p1 = now).
Proof.
  unfold garbageCollectIfNeeded. destruct (garbageCollectNeeded now p).
  - destruct (garbageCollect_sublist now h p) as (h' & a' & -> & Hsub).
    exists h', (mkStringPool a' now). auto.
  - exists h, p. auto.
Qed.

Lemma garbageCollectIfNeeded_small (now : Z) (h : Heap) (p : StringPool) :
  (length (strings p) <= 300)%nat -> garbageCollectIfNeeded now h p = Some (h, p).
Proof.
  intros Hlen. unfold garbageCollectIfNeeded, garbageCollectNeeded,
    minNumberOfStringsForGarbageCollection.
  destruct (Z.ltb_spec 300 (Z.of_nat (length (strings p)))); [lia|done].
Qed.

Section LockedAddMore.
Context {T : Type} `{NewStringType T}.
Variable x : T.
Variable c : list positive.
Hypothesis Hx : storesContent x c.

(** The entries after [addPooledString] are the entries before and the one
    returned. *)
Lemma addPooledString_entries (a : list String) (h : Heap) :
  sortedTable a ->
  exists r a' h', addPooledString a x h = Some (r, a', h')
    /\ text r = c /\ r ∈ a' /\ sortedTable a'
    /\ (length a' <= S (length a))%nat
    /\ (forall e, e ∈ a' -> e = r \/ e ∈ a)
    /\ ((forall e, e ∈ a -> text e <> c) -> length a' = S (length a)).
Proof.
  intros Hs.
  destruct (addPooledString_total x c Hx a h Hs)
    as (r & a' & h' & Hr & Ht & Hin & Hs' & Hcase).
  exists r, a', h'. split_and!; auto.
  - destruct Hcase as [(_ & -> & _)|(i & Hi & -> & _)]; [lia|].
    rewrite length_app, length_take. simpl. rewrite length_drop. lia.
  - destruct Hcase as [(_ & -> & _)|(i & Hi & -> & _)]; [auto|].
    intros e He. apply elem_of_app in He as [He|He].
    + right. rewrite <- (take_drop i a). apply elem_of_app. by left.
    + apply elem_of_cons in He as [->|He]; [by left|right].
      rewrite <- (take_drop i a). apply elem_of_app. by right.
  - intros Hno. destruct Hcase as [(Hra & _)|(i & Hi & -> & _)].
    + by apply Hno in Hra.
    + rewrite length_app, length_take. simpl. rewrite length_drop. lia.
Qed.

Lemma lockedAdd_result (now : Z) (h : Heap) (p : StringPool) :
  sortedTable (strings p) ->
  exists r h' p', lockedAdd x now h p = Some (r, h', p')
    /\ text r = c /\ r ∈ strings p' /\ sortedTable (strings p')
    /\ (length (strings p') <= S (length (strings p)))%nat
    /\ (forall e, e ∈ strings p' -> e = r \/ e ∈ strings p)
    /\ (lastGarbageCollectionTime p' = lastGarbageCollectionTime p
        \/ lastGarbageCollectionTime p' = now).
Proof.
  intros Hs. unfold lockedAdd.
  destruct (garbageCollectIfNeeded_result now h p) as (h1 & p1 & -> & Hsub & Htime).
  pose proof (sortedTable_sublist _ _ Hsub Hs) as Hs1.
  destruct (addPooledString_entries (strings p1) h1 Hs1)
    as (r & a' & h' & -> & Ht & Hin & Hs' & Hlen & Hent & _).
  exists r, h', (mkStringPool a' (lastGarbageCollectionTime p1)). simpl.
  split_and!; auto.
  - pose proof (sublist_length _ _ Hsub). lia.
  - intros e He. destruct (Hent e He) as [->|He']; [by left|right].
    by eapply elem_of_sublist.
Qed.

Lemma lockedAdd_small (now : Z) (h : Heap) (p : StringPool) :
  sortedTable (strings p) -> (length (strings p) <= 300)%nat ->
  exists r h' p', lockedAdd x now h p = Some (r, h', p')
    /\ text r = c /\ r ∈ strings p' /\ sortedTable (strings p')
    /\ lastGarbageCollectionTime p' = lastGarbageCollectionTime p
    /\ (forall e, e ∈ strings p -> e ∈ strings p')
    /\ (length (strings p') <= S (length (strings p)))%nat
    /\ (forall e, e ∈ strings p -> text e = c ->
          r = e /\ strings p' = strings p /\ h' = retain e h)
    /\ ((forall e, e ∈ strings p -> text e <> c) ->
          length (strings p') = S (length (strings p))).
Proof.
  intros Hs Hlen. unfold lockedAdd. rewrite garbageCollectIfNeeded_small by done.
  destruct (addPooledString_entries (strings p) h Hs)
    as (r & a' & h' & Hr & Ht & Hin & Hs' & Hle & _ & Habs).
  destruct (addPooledString_grows x c Hx (strings p) h Hs)
    as (r2 & a2 & h2 & Hr2 & _ & _ & _ & Hmono & _).
  rewrite Hr in Hr2. injection Hr2 as <- <- <-. rewrite Hr.
  exists r, h', (mkStringPool a' (lastGarbageCollectionTime p)). simpl.
  split_and!; auto.
  intros e He Hte. rewrite (addPooledString_found x c Hx (strings p) h e Hs He Hte) in Hr.
  by injection Hr as <- <- <-.
Qed.
End LockedAddMore.



(** X10.  Below the threshold interning never collects: on a sorted table of
    300 entries at most, whatever the counts and the clock value, a call on a
    valid input keeps every entry and the timestamp; the table is left as it
    is when the input is empty or its content is in the table, in which case
    the entry with the content is what is returned, and it has exactly one
    entry more, the returned one, when the content is new. *)
Theorem getPooledString_below_threshold (i : Input) (now : Z) (h : Heap) (p : StringPool) :
  sortedTable (strings p) -> validInput i -> (length (strings p) <= 300)%nat ->
  exists r h' p', getPooledString i now h p = Some (r, h', p')
    /\ text r = inputContent i
    /\ lastGarbageCollectionTime p' = lastGarbageCollectionTime p
    /\ (forall e, e ∈ strings p -> e ∈ strings p')
    /\ (inputContent i = [] -> r = emptyString /\ strings p' = strings p /\ h' = h)
    /\ (inputContent i <> [] ->
        forall e, e ∈ strings p -> text e = inputContent i ->
          r = e /\ strings p' = strings p /\ h' = retain e h)
    /\ (inputContent i <> [] ->
        (forall e, e ∈ strings p -> text e <> inputContent i) ->
        r ∈ strings p' /\ length (strings p') = S (length (strings p))).
Proof.
  intros Hs Hv Hlen. pose proof (isEmptyInput_content i Hv) as Hguard.
  destruct (isEmptyInput i) eqn:E.
  { rewrite getPooledString_empty by done. exists emptyString, h, p.
    assert (inputContent i = []) as Hc by tauto. split_and!; auto; done. }
  assert (inputContent i <> []) as Hc by (intros Hc; apply Hguard in Hc; done).
  apply getPooledString_cases; [done|]. intros T HT x Hx _.
  destruct (lockedAdd_small x _ Hx now h p Hs Hlen)
    as (r & h' & p' & -> & Ht & Hin & _ & Htime & Hmono & _ & Hfound & Habs).
  exists r, h', p'. split_and!; auto; done.
Qed.

(** A [String] whose content a table of three holds already. *)
Lemma getPooledString_below_threshold_witness :
  exists r h' p',
    getPooledString (Owned (mkString 9 [2]%positive)) 99999 (unheldHeap 3)
      (mkStringPool (unheldTable 3) 0) = Some (r, h', p')
    /\ text r = inputContent (Owned (mkString 9 [2]%positive))
    /\ lastGarbageCollectionTime p'
       = lastGarbageCollectionTime (mkStringPool (unheldTable 3) 0)
    /\ (forall e, e ∈ strings (mkStringPool (unheldTable 3) 0) -> e ∈ strings p')
    /\ (inputContent (Owned (mkString 9 [2]%positive)) = [] ->
        r = emptyString /\ strings p' = strings (mkStringPool (unheldTable 3) 0)
        /\ h' = unheldHeap 3)
    /\ (inputContent (Owned (mkString 9 [2]%positive)) <> [] ->
        forall e, e ∈ strings (mkStringPool (unheldTable 3) 0) ->
          text e = inputContent (Owned (mkString 9 [2]%positive)) ->
          r = e /\ strings p' = strings (mkStringPool (unheldTable 3) 0)
          /\ h' = retain e (unheldHeap 3))
    /\ (inputContent (Owned (mkString 9 [2]%positive)) <> [] ->
        (forall e, e ∈ strings (mkStringPool (unheldTable 3) 0) ->
           text e <> inputContent (Owned (mkString 9 [2]%positive))) ->
        r ∈ strings p'
        /\ length (strings p') = S (length (strings (mkStringPool (unheldTable 3) 0)))).
Proof.
  apply (getPooledString_below_threshold (Owned (mkString 9 [2]%positive)) 99999
           (unheldHeap 3) (mkStringPool (unheldTable 3) 0)).
  - unfold sortedTable. repeat constructor.
  - exact I.
  - simpl. lia.
Defined.

(** Any call keeps a sorted table sorted and adds one entry at most. *)
Lemma step_length (o : Op) (h : Heap) (p : StringPool) :
  sortedTable (strings p) -> noCollect o ->
  exists h' p', step o h p = Some (h', p')
    /\ sortedTable (strings p')
    /\ (length (strings p') <= S (length (strings p)))%nat.
Proof.
  intros Hs Hn. destruct o as [i now|now|s|s]; simpl in *; [|done|..].
  - destruct (isEmptyInput i) eqn:E.
    { rewrite getPooledString_empty by done. exists h, p. auto. }
    apply (getPooledString_cases
      (fun res => exists h' p',
         match res with Some (_, h', p') => Some (h', p') | None => None end
         = Some (h', p')
         /\ sortedTable (strings p')
         /\ (length (strings p') <= S (length (strings p)))%nat)); [done|].
    intros T HT x Hx _.
    destruct (lockedAdd_result x _ Hx now h p Hs)
      as (r & h' & p' & -> & _ & _ & Hs' & Hlen & _).
    by exists h', p'.
  - exists (retain s h), p. auto.
  - exists (release s h), p. auto.
Qed.

(** X11.  A pool that stays within the threshold never loses an entry: on a
    sorted table, a sequence of operations without an explicit
    [garbageCollect()] whose length added to the size of the table does not
    exceed 300 runs to its end and no collection pass removes an entry,
    however the holders outside acquire and release handles in between. *)
Theorem small_pool_keeps_entries (ops : list Op) : forall (h : Heap) (p : StringPool),
  sortedTable (strings p) -> Forall noCollect ops ->
  (length (strings p) + length ops <= 300)%nat ->
  keepsEntries ops h p = true
  /\ exists h' p', run ops h p = Some (h', p')
       /\ (forall e, e ∈ strings p -> e ∈ strings p').
Proof.
  induction ops as [|o ops IH]; intros h p Hs Hn Hlen.
  - split; [done|]. by exists h, p.
  - apply Forall_cons in Hn as [Hno Hn]. simpl in Hlen.
    assert (collectsNothing o h p = true) as Hk.
    { destruct o as [i now|now|s|s]; simpl in *; try done.
      rewrite garbageCollectIfNeeded_small by lia. simpl.
      rewrite bool_decide_eq_true_2 by done. apply orb_true_r. }
    destruct (step_length o h p Hs Hno) as (h1 & p1 & E & Hs1 & Hlen1).
    destruct (step_kept o h p Hs Hk) as (h1' & p1' & E' & _ & Hmono1).
    rewrite E in E'. injection E' as <- <-.
    destruct (IH h1 p1 Hs1 Hn) as (Hk2 & h2 & p2 & E2 & Hmono2); [lia|].
    cbn [keepsEntries run]. rewrite Hk, E, Hk2, E2. split; [done|].
    exists h2, p2. split; auto.
Qed.

(** Three calls on the empty pool, the first handle dropped at once. *)
Lemma small_pool_keeps_entries_witness :
  keepsEntries [Intern (RawBuffer (Some [102; 111; 111]%N)) 0;
                Release (mkString 1 [102; 111; 111]%positive);
                Intern (Reference [98; 97; 114]%N) 70000;
                Intern (CharRange [102; 111; 111; 100]%N 0 3) 140000]
    ∅ newStringPool = true
  /\ exists h' p',
       run [Intern (RawBuffer (Some [102; 111; 111]%N)) 0;
            Release (mkString 1 [102; 111; 111]%positive);
            Intern (Reference [98; 97; 114]%N) 70000;
            Intern (CharRange [102; 111; 111; 100]%N 0 3) 140000]
         ∅ newStringPool = Some (h', p')
       /\ (forall e, e ∈ strings newStringPool -> e ∈ strings p').
Proof.
  apply (small_pool_keeps_entries
           [Intern (RawBuffer (Some [102; 111; 111]%N)) 0;
            Release (mkString 1 [102; 111; 111]%positive);
            Intern (Reference [98; 97; 114]%N) 70000;
            Intern (CharRange [102; 111; 111; 100]%N 0 3) 140000]
           ∅ newStringPool).
  - constructor.
  - repeat constructor.
  - simpl. lia.
Defined.







(** ** The order of calls *)

(** Two sorted tables with the same texts hold them in the same order. *)
Lemma sortedTable_texts_unique (a b : list String) :
  sortedTable a -> sortedTable b ->
  (forall t, t ∈ text <$> a <-> t ∈ text <$> b) ->
  text <$> a = text <$> b.
Proof.
  intros Ha Hb Hsame.
  assert (forall l, sortedTable l -> StronglySorted lex_lt (text <$> l)) as Hlift.
  { intros l Hl. unfold sortedTable in Hl.
    induction Hl as [|s l Hl IH Hall]; [constructor|].
    rewrite fmap_cons. constructor; [done|].
    rewrite Forall_fmap. eapply Forall_impl; [exact Hall|].
    intros y Hy. by apply String_lt_lex. }
  apply (StronglySorted_unique_strong lex_lt); auto.
  - intros t1 t2 _ _ H12 H21. exfalso.
    eapply lex_lt_irrefl, lex_lt_trans; eauto.
  - apply NoDup_Permutation; auto using sortedTable_NoDup_text.
Qed.

(** Below the threshold a call adds the content of its input to the texts
    of the table, and nothing else. *)
Lemma getPooledString_small_texts (i : Input) (now : Z) (h : Heap) (p : StringPool) :
  sortedTable (strings p) -> validInput i -> (length (strings p) <= 300)%nat ->
  exists r h' p', getPooledString i now h p = Some (r, h', p')
    /\ sortedTable (strings p')
    /\ (length (strings p') <= S (length (strings p)))%nat
    /\ (forall t, t ∈ text <$> strings p' <->
                  t ∈ text <$> strings p \/ (t = inputContent i /\ inputContent i <> [])).
Proof.
  intros Hs Hv Hlen. pose proof (isEmptyInput_content i Hv) as Hguard.
  destruct (isEmptyInput i) eqn:E.
  { rewrite getPooledString_empty by done. exists emptyString, h, p.
    assert (inputContent i = []) as Hc by tauto.
    split_and!; auto. intros t. split; [auto|]. intros [?|[_ ?]]; done. }
  assert (inputContent i <> []) as Hc by (intros Hc; apply Hguard in Hc; done).
  apply getPooledString_cases; [done|]. intros T HT x Hx _.
  destruct (lockedAdd_result x _ Hx now h p Hs)
    as (r & h' & p' & Er & Ht & Hin & Hs' & Hle & Hent & _).
  destruct (lockedAdd_small x _ Hx now h p Hs Hlen)
    as (r2 & h2 & p2 & Er2 & _ & _ & _ & _ & Hmono & _).
  rewrite Er in Er2. injection Er2 as <- <- <-. rewrite Er.
  exists r, h', p'. split_and!; auto.
  intros t. rewrite !list_elem_of_fmap. split.
  - intros (e & -> & He). destruct (Hent e He) as [->|He']; [right|left; eauto].
    by rewrite Ht.
  - intros [(e & -> & He)|[-> _]]; [exists e|exists r]; auto.
Qed.

(** X14.  Below the threshold the order of two intern calls does not matter
    for what the table holds: on a sorted table of 299 entries at most, for
    all counts and clock values, interning [x] then [y] and interning [y]
    then [x] both return and leave tables with the same texts in the same
    order. *)
Theorem intern_order_irrelevant
    (x y : Input) (t1 t2 t3 t4 : Z) (h : Heap) (p : StringPool) :
  sortedTable (strings p) -> validInput x -> validInput y ->
  (length (strings p) <= 299)%nat ->
  exists h1 p1 h2 p2,
    run [Intern x t1; Intern y t2] h p = Some (h1, p1)
    /\ run [Intern y t3; Intern x t4] h p = Some (h2, p2)
    /\ text <$> strings p1 = text <$> strings p2.
Proof.
  intros Hs Hvx Hvy Hlen.
  assert (forall (a b : Input) (ta tb : Z), validInput a -> validInput b ->
    exists h' p', run [Intern a ta; Intern b tb] h p = Some (h', p')
      /\ sortedTable (strings p')
      /\ (forall t, t ∈ text <$> strings p' <->
            t ∈ text <$> strings p
            \/ (t = inputContent a /\ inputContent a <> [])
            \/ (t = inputContent b /\ inputContent b <> []))) as Hrun.
  { intros a b ta tb Hva Hvb. simpl.
    destruct (getPooledString_small_texts a ta h p Hs Hva)
      as (ra & ha & pa & -> & Hsa & Hla & Hta); [lia|].
    destruct (getPooledString_small_texts b tb ha pa Hsa Hvb)
      as (rb & hb & pb & -> & Hsb & _ & Htb); [lia|].
    exists hb, pb. split_and!; auto.
    intros t. rewrite Htb, Hta. tauto. }
  destruct (Hrun x y t1 t2 Hvx Hvy) as (h1 & p1 & E1 & Hs1 & Ht1).
  destruct (Hrun y x t3 t4 Hvy Hvx) as (h2 & p2 & E2 & Hs2 & Ht2).
  exists h1, p1, h2, p2. split_and!; auto.
  apply sortedTable_texts_unique; auto.
  intros t. rewrite Ht1, Ht2. tauto.
Qed.

(** "foo" and "bar", in either order, into the empty pool. *)
Lemma intern_order_irrelevant_witness :
  exists h1 p1 h2 p2,
    run [Intern (RawBuffer (Some [102; 111; 111]%N)) 0;
         Intern (Reference [98; 97; 114]%N) 1] ∅ newStringPool = Some (h1, p1)
    /\ run [Intern (Reference [98; 97; 114]%N) 2;
            Intern (RawBuffer (Some [102; 111; 111]%N)) 3] ∅ newStringPool
       = Some (h2, p2)
    /\ text <$> strings p1 = text <$> strings p2.
Proof.
  apply (intern_order_irrelevant (RawBuffer (Some [102; 111; 111]%N))
           (Reference [98; 97; 114]%N) 0 1 2 3 ∅ newStringPool).
  - constructor.
  - exact I.
  - exact I.
  - simpl. lia.
Defined.

(** ** Whose storage an entry is *)





(** ** Uniqueness while the entry is stored *)





(** On that table the first call removes entries, and both calls return the
    entry "7"; the later call leaves the table as it is. *)
Lemma intern_same_entry_others_collected :
  exists h0 h2,
    getPooledString (RawBuffer (Some [7%N])) 30001 (<[7%nat := 2%nat]> (unheldHeap 301))
      (mkStringPool (unheldTable 301) 0)
    = Some (unheldEntry 7, h0, mkStringPool [unheldEntry 7] 30001)
    /\ keepsEntries [Intern (RawBuffer (Some [7%N])) 30001]
         (<[7%nat := 2%nat]> (unheldHeap 301)) (mkStringPool (unheldTable 301) 0) = false
    /\ getPooledString (CharRange [7; 8]%N 0 1) 70000 h0 (mkStringPool [unheldEntry 7] 30001)
       = Some (unheldEntry 7, h2, mkStringPool [unheldEntry 7] 30001).
Proof. eexists _, _. split_and!; vm_compute; reflexivity. Qed.

(** ** Concurrent callers *)








